(** * A client-side router: [src/router/index.js]

    The router of [app-tools] keeps a table of compiled routes, a current
    route and a current context, and drives a navigation pipeline with
    plugin hooks.  This file embeds the class [Router] of the source and
    proves properties of its matching step, its navigation pipeline and
    its two event handlers.

    How the source is read:
    - a method is a computation on an explicit state, which holds the
      fields [context] and [route] of the router and what the router
      touches of the window: location, history, document title and the
      [route-changed] events it has dispatched;
    - an [async] method is run to completion, its [await]s in sequence;
      a rejected promise is a thrown exception.  Two navigations that
      interleave are outside this reading;
    - the hooks of plugins are functions of the context they are given
      that read and write a state of their own, the application's, and may
      throw; they do not write the router or the window, and they do not
      write into the context object they receive;
    - a [title] function of a route has no side effect, as its typedef
      has it, but it may throw;
    - [URL], [URLPattern], [URLSearchParams], [document.baseURI] and
      [history.pushState] belong to the browser and stay abstract, in the
      class [Host]. *)

From stdpp Require Import base option list strings gmap.

Set Default Proof Using "Type".
Open Scope string_scope.
Open Scope list_scope.
Open Scope nat_scope.

(** ** URLs and the host environment *)

(** The properties of a [URL] object the router reads. *)
Record URL := mkURL {
  href : string;
  pathname : string;
  search : string
}.

#[global] Instance URL_eq_dec : EqDecision URL.
Proof. solve_decision. Defined.

(** What [URLPattern.prototype.exec] returns on a match; the router reads
    only [match?.pathname?.groups]. *)
Record URLPatternResult := {
  pathname_groups : option (gmap string string)
}.

(** Exceptions: errors of the language and of the DOM. *)
Inductive Exn :=
| TypeError (msg : string)
| Error (msg : string)
| DOMException (name : string).

(** The browser primitives the router calls.  They are external to the
    source and stay abstract:
    - [URLPattern_new path baseURL] is
      [new URLPattern({pathname: path, baseURL, search: '*', hash: '*'})],
      [None] when the constructor throws;
    - [URLPattern_exec p url] is [p.exec(url)], [None] for [null];
    - [URL_new s base] is [new URL(s, base)], [None] when it throws;
    - [URLSearchParams s] lists the entries of [new URLSearchParams(s)];
    - [baseUrl_at loc] is the value of [new URL('./', document.baseURI)]
      when the location of the window is [loc] (without a [base] element
      the base URI of the document follows the location), [None] when
      the constructor throws;
    - [pushState_location entry loc] is the location of the window after
      [history.pushState(null, '', entry)] called at the location [loc],
      [None] when the call throws (an entry of another origin);
    - [App] is the state of the application that the hooks of plugins can
      read and write, [RenderResult] what a [render] function returns. *)
Class Host := {
  Pattern : Type;
  URLPattern_new : string → URL → option Pattern;
  URLPattern_exec : Pattern → URL → option URLPatternResult;
  URL_new : string → option URL → option URL;
  URLSearchParams : string → list (string * string);
  baseUrl_at : URL → option URL;
  pushState_location : string → URL → option URL;
  App : Type;
  RenderResult : Type
}.

(** [Object.fromEntries]: a later entry overwrites an earlier one with the
    same key. *)
Definition fromEntries (l : list (string * string)) : gmap string string :=
  foldl (λ o kv, <[kv.1 := kv.2]> o) ∅ l.

(** [haystack.includes(needle)] *)
Fixpoint includes (needle haystack : string) : bool :=
  String.prefix needle haystack ||
  match haystack with
  | EmptyString => false
  | String _ rest => includes needle rest
  end.

(** ** The part of the DOM the click handler reads *)

(** A node of an event's composed path: [tagName] is [None] on nodes
    that have none, [el_href] is the property [href] ([None] for
    [undefined]). *)
Record Element := {
  tagName : option string;
  el_href : option string;
  attributes : gmap string string
}.

Definition hasAttribute (el : Element) (name : string) : bool :=
  bool_decide (is_Some (attributes el !! name)).

Definition getAttribute (el : Element) (name : string) : option string :=
  attributes el !! name.

Record MouseEvent := mkMouseEvent {
  defaultPrevented : bool;
  button : Z;
  metaKey : bool;
  ctrlKey : bool;
  shiftKey : bool;
  composedPath : list Element
}.

(** [e.composedPath().find((el) => el.tagName === 'A')] *)
Definition clicked_anchor (e : MouseEvent) : option Element :=
  List.find (λ el, bool_decide (tagName el = Some "A")) (composedPath e).

Definition preventDefault (e : MouseEvent) : MouseEvent :=
  mkMouseEvent true (button e) (metaKey e) (ctrlKey e) (shiftKey e)
    (composedPath e).

(** ** The data model of the source (its JSDoc typedefs) *)

Section Model.
Context `{host : Host}.

Record Context := mkContext {
  ctx_url : URL;
  ctx_title : string;
  ctx_params : gmap string string;
  ctx_query : gmap string string
}.

(** [title: string | ((context) => string)]; the function is called with
    [{params, query, url}]. *)
Inductive Title :=
| TitleString (s : string)
| TitleFunction
    (f : gmap string string → gmap string string → URL → Exn + string).

(** A hook is called with the current context; it runs on the
    application's state and returns or throws. *)
Definition Hook (A : Type) : Type := Context → App → (Exn + A) * App.

Record Guard := {
  condition : App → (Exn + bool) * App;
  redirect : string
}.

Record Plugin := {
  shouldNavigate : option (Hook (option Guard));
  beforeNavigation : option (Hook unit);
  afterNavigation : option (Hook unit)
}.

Record RouteDefinition := {
  path : string;
  title : Title;
  render : option (Context → RenderResult);
  plugins : option (list Plugin)
}.

(** [{...route, urlPattern}] *)
Record Route := {
  definition :> RouteDefinition;
  urlPattern : Pattern
}.

Record Config := {
  fallback : option string;
  config_plugins : option (list Plugin);
  config_routes : list RouteDefinition
}.

(** The fields of a router that are set once, in the constructor. *)
Record Router := {
  config : Config;
  routes : list Route
}.

(** The state a navigation reads and writes: the router's fields
    [context] and [route] ([None] stands for [undefined] and [null],
    which the code never tells apart), the window's location, the entries
    pushed on its history, the document's title, the contexts of the
    [route-changed] events dispatched so far, and the application's
    state. *)
Record State := mkState {
  context : Context;
  route : option Route;
  location : URL;
  history : list string;
  document_title : string;
  dispatched : list Context;
  app : App
}.

(** ** Computations that read and write the state and may throw.
    A thrown exception keeps the writes made before it. *)
Definition JS (A : Type) : Type := State → (Exn + A) * State.

#[export] Instance JS_ret : MRet JS := λ A x s, (inr x, s).
#[export] Instance JS_bind : MBind JS := λ A B f m s,
  match m s with
  | (inr x, s') => f x s'
  | (inl e, s') => (inl e, s')
  end.

Definition throw {A} (e : Exn) : JS A := λ s, (inl e, s).
Definition gets {A} (f : State → A) : JS A := λ s, (inr (f s), s).
Definition modify (f : State → State) : JS unit := λ s, (inr tt, f s).

(** Writes of one field. *)
Definition with_context (c : Context) (s : State) : State :=
  mkState c (route s) (location s) (history s)
    (document_title s) (dispatched s) (app s).

Definition with_route (r : option Route) (s : State) : State :=
  mkState (context s) r (location s) (history s)
    (document_title s) (dispatched s) (app s).

Definition with_app (a : App) (s : State) : State :=
  mkState (context s) (route s) (location s) (history s)
    (document_title s) (dispatched s) a.

Definition with_document_title (t : string) (s : State) : State :=
  mkState (context s) (route s) (location s) (history s)
    t (dispatched s) (app s).

(** The state after a call of [history.pushState(null, '', entry)] that
    moved the location to [loc]: one entry more. *)
Definition pushed (entry : string) (loc : URL) (s : State) : State :=
  mkState (context s) (route s) loc (history s ++ [entry])
    (document_title s) (dispatched s) (app s).

(** [this.dispatchEvent(new RouteEvent(c))] *)
Definition notified (c : Context) (s : State) : State :=
  mkState (context s) (route s) (location s) (history s)
    (document_title s) (dispatched s ++ [c]) (app s).

(** Calling a hook: [await hook(this.context)]. *)
Definition call {A} (h : Hook A) : JS A := λ s,
  let '(r, a) := h (context s) (app s) in (r, with_app a s).

(** [await result.condition()] *)
Definition await_condition (g : Guard) : JS bool := λ s,
  let '(r, a) := condition g (app s) in (r, with_app a s).

Definition set_context (c : Context) : JS unit := modify (with_context c).
Definition set_route (r : option Route) : JS unit := modify (with_route r).
(** [window.history.pushState(null, '', entry)] *)
Definition pushState (entry : string) : JS unit := λ s,
  match pushState_location entry (location s) with
  | Some loc => (inr tt, pushed entry loc s)
  | None => (inl (DOMException "SecurityError"), s)
  end.
Definition set_document_title (t : string) : JS unit :=
  modify (with_document_title t).
Definition dispatchEvent (c : Context) : JS unit := modify (notified c).

(** ** The class [Router] *)

(** The constructor: every route definition gets its [urlPattern],
    compiled against the location at that moment. *)
Definition compile (loc : URL) (d : RouteDefinition) : Exn + Route :=
  match URLPattern_new (path d) loc with
  | Some p => inr {| definition := d; urlPattern := p |}
  | None => inl (TypeError "Invalid URLPattern")
  end.

Fixpoint compile_all (loc : URL) (ds : list RouteDefinition)
  : Exn + list Route :=
  match ds with
  | [] => inr []
  | d :: ds' =>
    match compile loc d with
    | inl e => inl e
    | inr r =>
      match compile_all loc ds' with
      | inl e => inl e
      | inr rs => inr (r :: rs)
      end
    end
  end.

Definition Router_new (cfg : Config) (loc : URL) : Exn + Router :=
  match compile_all loc (config_routes cfg) with
  | inl e => inl e
  | inr rs => inr {| config := cfg; routes := rs |}
  end.

(** The state right after construction: the class field [context], and
    [route] not assigned yet. *)
Definition initial_state (loc : URL) (doc_title : string) (a : App) : State :=
  mkState (mkContext loc "" ∅ ∅) None loc [] doc_title [] a.

(** [new URL(ref, this.baseUrl)] when the location of the window is
    [loc]: the getter [baseUrl] is read at each use. *)
Definition resolve_at (loc : URL) (ref : string) : option URL :=
  match baseUrl_at loc with
  | Some base => URL_new ref (Some base)
  | None => None
  end.

Definition new_URL (ref : string) : JS URL := λ s,
  match resolve_at (location s) ref with
  | Some u => (inr u, s)
  | None => (inl (TypeError "Invalid URL"), s)
  end.

(** What a navigation commits to: the location, the history, the title
    of the document and the events dispatched. *)
Definition window (s : State)
  : URL * list string * string * list Context :=
  (location s, history s, document_title s, dispatched s).

(** The state after the three statements of the commit, for the final
    value [url] of the target, when [pushState] moved the location to
    [loc]. *)
Definition committed (url loc : URL) (s : State) : State :=
  notified (context s)
    (with_document_title (ctx_title (context s))
       (pushed (pathname url +:+ search url) loc s)).

(** [s'] is [s] after one commit for the target [url]: one entry more
    on the history, the location moved to it, the title of the current
    context as document title, one event more, which carries the current
    context, and a current route. *)
Definition commits (url : URL) (s s' : State) : Prop :=
  history s' = history s ++ [pathname url +:+ search url] ∧
  pushState_location (pathname url +:+ search url) (location s)
    = Some (location s') ∧
  document_title s' = ctx_title (context s') ∧
  dispatched s' = dispatched s ++ [context s'] ∧
  is_Some (route s').

(** The state [s] seen from the window of [w]: the router's fields and
    the application's state of [s], the location, history, title and
    events of [w]. *)
Definition rebase (w s : State) : State :=
  mkState (context s) (route s) (location w) (history w)
    (document_title w) (dispatched w) (app s).

(** ** Vocabulary about plugins *)


(** A hook without side effect leaves the application's state as it
    found it. *)
Definition pure_hook {A} (h : Hook A) : Prop :=
  ∀ c a, (h c a).2 = a.

Definition pure_plugin (p : Plugin) : Prop :=
  (∀ h, shouldNavigate p = Some h →
     pure_hook h ∧ ∀ c a g, (h c a).1 = inr (Some g) →
                    ∀ a', (condition g a').2 = a') ∧
  (∀ h, beforeNavigation p = Some h → pure_hook h) ∧
  (∀ h, afterNavigation p = Some h → pure_hook h).


(** The browser moves the location (back, forward) before it fires
    [popstate]. *)
Definition with_location (loc : URL) (s : State) : State :=
  mkState (context s) (route s) loc (history s)
    (document_title s) (dispatched s) (app s).

Section Methods.
Variable this : Router.

(** [this.config?.fallback || '/'] *)
Definition fallback_string : string :=
  match fallback (config this) with
  | Some f => if decide (f = "") then "/" else f
  | None => "/"
  end.

(** [get fallback()] *)
Definition get_fallback : JS URL := new_URL fallback_string.

(** The context built when [r] matches [url] with result [m]; the
    [title] function of the route may throw. *)
Definition build_context (r : Route) (url : URL) (m : URLPatternResult)
  : Exn + Context :=
  let query := fromEntries (URLSearchParams (search url)) in
  let params := default ∅ (pathname_groups m) in
  match
    match title r with
    | TitleFunction f => f params query url
    | TitleString t => inr t
    end
  with
  | inr t => inr (mkContext url t params query)
  | inl e => inl e
  end.

(** The loop of [_matchRoute] over [this.routes]. *)
Fixpoint match_loop (rs : list Route) (url : URL) : JS (option Route) :=
  match rs with
  | [] => mret None
  | r :: rs' =>
    match URLPattern_exec (urlPattern r) url with
    | Some m =>
      match build_context r url m with
      | inr c => set_context c;; mret (Some r)
      | inl e => throw e
      end
    | None => match_loop rs' url
    end
  end.

Definition _matchRoute (url : URL) : JS (option Route) :=
  match_loop (routes this) url.

(** [this._matchRoute(url) || this._matchRoute(this.fallback)] *)
Definition match_or_fallback (url : URL) : JS (option Route) :=
  _matchRoute url ≫= λ r : option Route,
  match r with
  | Some _ => mret r
  | None => fb ← get_fallback; _matchRoute fb
  end.

Definition _notifyUrlChanged : JS unit :=
  c ← gets context; dispatchEvent c.

(** [render()] returns [undefined] ([None]) when [this.route] is
    nullish; otherwise it calls [this.route.render], which throws when the
    route has no [render]. *)
Definition Router_render (s : State) : Exn + option RenderResult :=
  let c := context s in
  match route s with
  | None => inr None
  | Some r =>
    match render r with
    | Some f =>
      inr (Some (f (mkContext (ctx_url c) (ctx_title c)
                      (ctx_params c) (ctx_query c))))
    | None => inl (TypeError "this.route?.render is not a function")
    end
  end.

Definition _onPopState : JS unit :=
  loc ← gets location;
  r ← _matchRoute loc;
  set_route r;;
  _notifyUrlChanged.

(** The body of the first loop of [navigate], for the plugin [p]; [url]
    is the local variable that a redirect reassigns, and the body returns
    its value at the end. *)
Definition guard_step (p : Plugin) (url : URL) : JS URL :=
  match shouldNavigate p with
  | Some h => call h
  | None => mret None
  end ≫= λ result : option Guard,
  match result with
  | Some g =>
    await_condition g ≫= λ c : bool,
    if c then mret url
    else
      url' ← new_URL (redirect g);
      r ← match_or_fallback url';
      set_route r;;
      mret url'
  | None => mret url
  end.

Fixpoint guard_loop (ps : list Plugin) (url : URL) : JS URL :=
  match ps with
  | [] => mret url
  | p :: ps' => url' ← guard_step p url; guard_loop ps' url'
  end.

(** The bodies of the second and of the third loop. *)
Definition before_step (p : Plugin) : JS unit :=
  match beforeNavigation p with
  | Some h => call h
  | None => mret tt
  end.

Definition after_step (p : Plugin) : JS unit :=
  match afterNavigation p with
  | Some h => call h
  | None => mret tt
  end.

Fixpoint before_loop (ps : list Plugin) : JS unit :=
  match ps with
  | [] => mret tt
  | p :: ps' =>
    before_step p;;
    before_loop ps'
  end.

Fixpoint after_loop (ps : list Plugin) : JS unit :=
  match ps with
  | [] => mret tt
  | p :: ps' =>
    after_step p;;
    after_loop ps'
  end.

(** [const plugins = [...(this.config?.plugins ?? []),
                      ...(this.route?.plugins ?? [])]] *)
Definition effective_plugins (r : option Route) : list Plugin :=
  default [] (config_plugins (config this)) ++
  match r with
  | Some r => default [] (plugins r)
  | None => []
  end.

Definition unroutable (url : URL) : Exn :=
  Error ("[ROUTER] No route or fallback matched for url " +:+ href url).

(** The three statements between the before and the after loop. *)
Definition commit (url : URL) : JS unit :=
  pushState (pathname url +:+ search url);;
  c ← gets context;
  set_document_title (ctx_title c);;
  _notifyUrlChanged.

(** [navigate] from [if (!this.route)] on: [url] is the value the first
    loop left in the local variable. *)
Definition complete_navigation (plugins : list Plugin) (url : URL)
  : JS unit :=
  gets route ≫= λ r : option Route,
  match r with
  | None => throw (unroutable url)
  | Some _ =>
    before_loop plugins;;
    commit url;;
    after_loop plugins
  end.

(** [if (typeof url === 'string') url = new URL(url, this.baseUrl)] *)
Definition target_url (loc : URL) (target : string + URL) : option URL :=
  match target with
  | inl s => resolve_at loc s
  | inr u => Some u
  end.

(** [async navigate(url)], run to completion; [inl] is a rejection. *)
Definition navigate (target : string + URL) : JS unit :=
  loc ← gets location;
  match target_url loc target with
  | None => throw (TypeError "Invalid URL")
  | Some url =>
    r ← match_or_fallback url;
    set_route r;;
    let plugins := effective_plugins r in
    url ← guard_loop plugins url;
    complete_navigation plugins url
  end.

(** [queueMicrotask(() => this.navigate(new URL(window.location.href)))],
    the navigation the constructor schedules. *)
Definition boot : JS unit :=
  loc ← gets location; navigate (inr loc).

(** ** The click handler *)

(** The statements of [_onAnchorClick] before [e.preventDefault()]:
    [None] when the handler returns early, the URL of the anchor when it
    goes on. *)
Definition intercepted (e : MouseEvent) (s : State) : Exn + option URL :=
  if defaultPrevented e || negb (bool_decide (button e = 0%Z)) ||
     metaKey e || ctrlKey e || shiftKey e
  then inr None
  else
    match clicked_anchor e with
    | None => inr None
    | Some a =>
      match el_href a with
      | None => inr None
      | Some h =>
        if bool_decide (h = "") then inr None
        else
          match URL_new h None with
          | None => inl (TypeError "Invalid URL")
          | Some url =>
            if bool_decide (href (location s) = href url) then inr None
            else if hasAttribute a "download" || includes "mailto:" h
            then inr None
            else
              match getAttribute a "target" with
              | Some target =>
                if negb (bool_decide (target = "")) &&
                   negb (bool_decide (target = "_self"))
                then inr None
                else inr (Some url)
              | None => inr (Some url)
              end
          end
      end
    end.

(** How a call of the handler ends: it returns without a navigation, it
    throws, or it has called [navigate], whose promise settles as
    [settled]. *)
Inductive Handled :=
| Returned
| Threw (e : Exn)
| Navigated (settled : Exn + unit).

Definition _onAnchorClick (e : MouseEvent) (s : State)
  : Handled * MouseEvent * State :=
  match intercepted e s with
  | inl exn => (Threw exn, e, s)
  | inr None => (Returned, e, s)
  | inr (Some url) =>
    let '(settled, s') := navigate (inr url) s in
    (Navigated settled, preventDefault e, s')
  end.

(** ** Vocabulary of the properties *)

(** [r]'s compiled matcher accepts [url]. *)
Definition accepts (r : Route) (url : URL) : Prop :=
  is_Some (URLPattern_exec (urlPattern r) url).

(** The first route of a table whose matcher accepts [url], with the
    result of the match. *)
Fixpoint find_match (rs : list Route) (url : URL)
  : option (Route * URLPatternResult) :=
  match rs with
  | [] => None
  | r :: rs' =>
    match URLPattern_exec (urlPattern r) url with
    | Some m => Some (r, m)
    | None => find_match rs' url
    end
  end.

(** What [_matchRoute(url) || _matchRoute(this.fallback)] finds: the
    route and the context of the first match for [url] or else for the
    fallback, nothing when neither is accepted, an exception when the
    fallback is needed and is no URL. *)
Definition first_context (url : URL) : Exn + option (Route * Context) :=
  match find_match (routes this) url with
  | Some (r, m) =>
    match build_context r url m with
    | inr c => inr (Some (r, c))
    | inl e => inl e
    end
  | None => inr None
  end.

Definition resolved (loc url : URL) : Exn + option (Route * Context) :=
  match first_context url with
  | inr None =>
    match resolve_at loc fallback_string with
    | Some fb => first_context fb
    | None => inl (TypeError "Invalid URL")
    end
  | found => found
  end.

(** Neither the target nor the fallback is accepted by any route. *)
Definition unroutable_target (loc url : URL) : Prop :=
  find_match (routes this) url = None ∧
  ∃ fb, resolve_at loc fallback_string = Some fb ∧
        find_match (routes this) fb = None.

(** [url] is the current URL of the router: the current route is the
    first one that accepts it and the current context is the one built
    from that match. *)
Definition is_current (url : URL) (s : State) : Prop :=
  ∃ r m, find_match (routes this) url = Some (r, m) ∧
         route s = Some r ∧ build_context r url m = inr (context s).

Definition global_plugins : list Plugin :=
  default [] (config_plugins (config this)).

(** Every plugin the router can run: the global ones and those of its
    routes. *)
Definition all_plugins : list Plugin :=
  global_plugins ++ concat (map (λ r : Route, default [] (plugins r))
                              (routes this)).

(** The current route and the current context agree: a current route is
    a route of the table, it accepts the URL of the current context, and
    the current context is the one built from that match. *)
Definition in_sync (s : State) : Prop :=
  ∀ r, route s = Some r →
    r ∈ routes this ∧
    ∃ m, URLPattern_exec (urlPattern r) (ctx_url (context s)) = Some m ∧
         build_context r (ctx_url (context s)) m = inr (context s).

(** The states a router goes through: the one after construction, then
    calls of [navigate] and of the two handlers, in any order. *)
Inductive reachable : State → Prop :=
| reach_initial loc t a : reachable (initial_state loc t a)
| reach_navigate target s :
    reachable s → reachable (navigate target s).2
| reach_popstate loc s :
    reachable s → reachable (_onPopState (with_location loc s)).2
| reach_click e s :
    reachable s → reachable (_onAnchorClick e s).2.

End Methods.

(** ** Vocabulary about routers that differ in the plugins of routes *)

(** A route with its plugins left out. *)
Definition without_plugins (r : Route) : Route :=
  {| definition := {| path := path r; title := title r; render := render r;
                      plugins := None |};
     urlPattern := urlPattern r |}.

(** Two routers with the same fallback, the same global plugins and the
    same routes up to the plugins of the routes. *)
Definition same_routing (this that : Router) : Prop :=
  fallback (config this) = fallback (config that) ∧
  config_plugins (config this) = config_plugins (config that) ∧
  map without_plugins (routes this) = map without_plugins (routes that).

(** Two current routes that are the same up to their plugins. *)
Definition same_route (r r' : option Route) : Prop :=
  without_plugins <$> r = without_plugins <$> r'.

(** Two states that are the same up to the plugins of the current
    route. *)
Definition same_but_plugins (s t : State) : Prop :=
  context s = context t ∧ same_route (route s) (route t) ∧
  location s = location t ∧ history s = history t ∧
  document_title s = document_title t ∧ dispatched s = dispatched t ∧
  app s = app t.

(** Two runs with the same exception, or with results related by [RA],
    that end in states that are the same up to the plugins of the current
    route. *)
Definition same_run {A} (RA : A → A → Prop)
    (x y : (Exn + A) * State) : Prop :=
  same_but_plugins x.2 y.2 ∧
  match x.1, y.1 with
  | inl e, inl e' => e = e'
  | inr a, inr a' => RA a a'
  | _, _ => False
  end.

End Model.

(** ** A sample host and sample routers

    The sample host handles what the examples below use: references that
    are absolute paths of one segment with neither query nor fragment,
    absolute URLs of one site with such a path, and path templates
    without parameters, which accept the URLs whose path is the template.
    Its pages all lie at the root of the site, so that the base URL is the
    root wherever the window is, and the history accepts the paths the
    host handles. *)
Module Sample.

Definition site : string := "https://example.org".

Definition plain_path (s : string) : bool :=
  String.prefix "/" s &&
  negb (includes "/" (String.substring 1 (String.length s - 1) s)) &&
  negb (includes "?" s) && negb (includes "#" s) && negb (includes "." s).

Definition parse (s : string) (base : option URL) : option URL :=
  match base with
  | Some b => if plain_path s then Some (mkURL (site +:+ s) s "") else None
  | None =>
    let rest := String.substring (String.length site)
                  (String.length s - String.length site) s in
    if String.prefix site s && plain_path rest
    then Some (mkURL s rest "") else None
  end.

Definition exec (p : string) (u : URL) : option URLPatternResult :=
  if String.eqb p (pathname u)
  then Some {| pathname_groups := Some ∅ |} else None.

#[export] Instance host : Host := {|
  Pattern := string;
  URLPattern_new p _ := Some p;
  URLPattern_exec := exec;
  URL_new := parse;
  URLSearchParams _ := [];
  baseUrl_at _ := Some (mkURL (site +:+ "/") "/" "");
  pushState_location entry _ :=
    if plain_path entry then Some (mkURL (site +:+ entry) entry "") else None;
  App := list string;
  RenderResult := string
|}.

Definition at_path (p : string) : URL := mkURL (site +:+ p) p "".

(** A route without plugins and without [render]. *)
Definition page (p t : string) : RouteDefinition :=
  {| path := p; title := TitleString t; render := None; plugins := None |}.

Definition with_plugins (d : RouteDefinition) (ps : list Plugin)
  : RouteDefinition :=
  {| path := path d; title := title d; render := render d;
     plugins := Some ps |}.

(** Hooks that write their name in the application's log. *)
Definition log (name : string) : Hook unit :=
  λ _ a, (inr tt, a ++ [name]).

Definition guard_to (name : string) (ok : bool) (to : string)
  : Hook (option Guard) :=
  λ _ a, (inr (Some {| condition := λ a', (inr ok, a');
                       redirect := to |}), a ++ [name]).

Definition throwing {A} (msg : string) : Hook A :=
  λ _ a, (inl (Error msg), a).

(** A plugin with the three hooks; its guard redirects to [to] unless
    [ok]. *)
Definition plugin (name : string) (ok : bool) (to : string) : Plugin :=
  {| shouldNavigate := Some (guard_to ("should:" +:+ name) ok to);
     beforeNavigation := Some (log ("before:" +:+ name));
     afterNavigation := Some (log ("after:" +:+ name)) |}.

Definition router_of (cfg : Config) : Router :=
  match Router_new cfg (at_path "/") with
  | inr r => r
  | inl _ => {| config := cfg; routes := [] |}
  end.

Definition start : State := initial_state (at_path "/") "" [].

(** One page at [/a]; the fallback is the default [/], which no route
    accepts. *)
Definition one_page : Router :=
  router_of {| fallback := None; config_plugins := None;
               config_routes := [page "/a" "A"] |}.

(** Two routes with the same template. *)
Definition twins : Router :=
  router_of {| fallback := None; config_plugins := None;
               config_routes := [page "/a" "first"; page "/a" "second"] |}.

(** A home page that is also the fallback. *)
Definition with_home : Router :=
  router_of {| fallback := Some "/home"; config_plugins := None;
               config_routes := [page "/home" "Home"] |}.

(** The state of the window after the user went back to [/gone]. *)
Definition went_back (s : State) : State :=
  mkState (context s) (route s) (at_path "/gone") (history s)
    (document_title s) (dispatched s) (app s).

(** Clicks on a link to [/docs]. *)
Definition anchor (attrs : gmap string string) : Element :=
  {| tagName := Some "A"; el_href := Some "https://example.org/docs";
     attributes := attrs |}.

Definition body : Element :=
  {| tagName := Some "BODY"; el_href := None; attributes := ∅ |}.

Definition click (a : Element) : MouseEvent :=
  mkMouseEvent false 0 false false false [a; body].

(** [one_page] with a global plugin whose guard always redirects to
    [/a]. *)
Definition one_page_redirecting : Router :=
  router_of {| fallback := None;
               config_plugins := Some [plugin "global" false "/a"];
               config_routes := [page "/a" "A"] |}.


(** A page [/a] whose first plugin redirects to [/login]; both routes
    have two plugins of their own. *)
Definition gated : Router :=
  router_of {| fallback := None; config_plugins := None;
               config_routes :=
                 [with_plugins (page "/a" "A")
                    [plugin "a1" false "/login"; plugin "a2" true "/"];
                  with_plugins (page "/login" "Login")
                    [plugin "l1" true "/"; plugin "l2" true "/"]] |}.

(** A page whose plugin throws in the given phase. *)
Definition failing_plugin (phase : nat) : Plugin :=
  {| shouldNavigate :=
       if decide (phase = 0) then Some (throwing "guard") else None;
     beforeNavigation :=
       if decide (phase = 1) then Some (throwing "before") else None;
     afterNavigation :=
       if decide (phase = 2) then Some (throwing "after") else None |}.

Definition failing (phase : nat) : Router :=
  router_of {| fallback := None; config_plugins := None;
               config_routes :=
                 [with_plugins (page "/a" "A") [failing_plugin phase]] |}.

(** The compiled form of a definition on the sample host. *)
Definition route_of (d : RouteDefinition) : Route :=
  {| definition := d; urlPattern := path d |}.

Definition page_a : Route :=
  route_of (with_plugins (page "/a" "A")
              [plugin "a1" false "/login"; plugin "a2" true "/"]).

Definition page_login : Route :=
  route_of (with_plugins (page "/login" "Login")
              [plugin "l1" true "/"; plugin "l2" true "/"]).

(** The context of a page without parameters. *)
Definition context_of (p t : string) : Context :=
  mkContext (at_path p) t ∅ ∅.



(** A guard without side effect that always redirects to [to]. *)
Definition pure_guard (to : string) : Plugin :=
  {| shouldNavigate :=
       Some (λ _ a, (inr (Some {| condition := λ a', (inr false, a');
                                  redirect := to |}), a));
     beforeNavigation := None;
     afterNavigation := None |}.

(** The only page redirects to a URL that no route accepts. *)
Definition dead_end : Router :=
  router_of {| fallback := None; config_plugins := None;
               config_routes :=
                 [with_plugins (page "/a" "A") [pure_guard "/nowhere"]] |}.

(** The state after the user went back to [/a]. *)
Definition back_at_a : State :=
  (_onPopState dead_end
     (mkState (context start) None (at_path "/a") [] "" [] [])).2.

(** A page with a plugin whose hooks have no side effect and whose guard
    passes. *)
Definition quiet_plugin : Plugin :=
  {| shouldNavigate :=
       Some (λ _ a, (inr (Some {| condition := λ a', (inr true, a');
                                  redirect := "/" |}), a));
     beforeNavigation := Some (λ _ a, (inr tt, a));
     afterNavigation := Some (λ _ a, (inr tt, a)) |}.

Definition quiet : Router :=
  router_of {| fallback := None; config_plugins := Some [quiet_plugin];
               config_routes :=
                 [with_plugins (page "/a" "A") [quiet_plugin]] |}.

(** A router whose fallback is no URL. *)
Definition bad_fallback : Router :=
  router_of {| fallback := Some "http://"; config_plugins := None;
               config_routes := [page "/a" "A"] |}.

(** The sample host with a query parser that knows one query. *)
Definition host_with_query : Host := {|
  Pattern := string;
  URLPattern_new p _ := Some p;
  URLPattern_exec := exec;
  URL_new := parse;
  URLSearchParams q :=
    if String.eqb q "?tab=posts&tab=likes"
    then [("tab", "posts"); ("tab", "likes")] else [];
  baseUrl_at _ := Some (mkURL (site +:+ "/") "/" "");
  pushState_location entry _ :=
    if plain_path entry then Some (mkURL (site +:+ entry) entry "") else None;
  App := list string;
  RenderResult := string
|}.

(** A page that renders the title and the path of its context. *)
Definition rendering : Router :=
  router_of {| fallback := None; config_plugins := None;
               config_routes :=
                 [{| path := "/a"; title := TitleString "A";
                     render := Some (λ c, ctx_title c +:+ " at " +:+
                                          pathname (ctx_url c));
                     plugins := None |}] |}.

(** A URL with a query of two entries for one key. *)
Definition with_query : URL :=
  mkURL (site +:+ "/a?tab=posts&tab=likes") "/a" "?tab=posts&tab=likes".

Definition page_with_query : @Route host_with_query :=
  @Build_Route host_with_query
    (@Build_RouteDefinition host_with_query "/a"
       (TitleString "A") None None)
    "/a".

(** [gated] with other plugins on the route [/login]: one whose guard
    throws. *)
Definition gated_otherwise : Router :=
  router_of {| fallback := None; config_plugins := None;
               config_routes :=
                 [with_plugins (page "/a" "A")
                    [plugin "a1" false "/login"; plugin "a2" true "/"];
                  with_plugins (page "/login" "Login")
                    [failing_plugin 0]] |}.

(** The state of [with_home] at its home page, and after the user went
    back from there to [/gone]. *)
Definition at_home : State := (navigate with_home (inl "/home") start).2.

End Sample.

(** ** Running computations *)

Section Running.
Context `{host : Host}.

Lemma bind_run {A B} (m : JS A) (f : A → JS B) (s : State) :
  (m ≫= f) s =
  match m s with
  | (inr x, s') => f x s'
  | (inl e, s') => (inl e, s')
  end.
Proof. reflexivity. Qed.

Lemma bind_returns {A B} (m : JS A) (f : A → JS B) s x s' :
  m s = (inr x, s') → (m ≫= f) s = f x s'.
Proof. intros Hm. by rewrite bind_run, Hm. Qed.

Lemma bind_throws {A B} (m : JS A) (f : A → JS B) s e s' :
  m s = (inl e, s') → (m ≫= f) s = (inl e, s').
Proof. intros Hm. by rewrite bind_run, Hm. Qed.

(** ** The matching step *)

Lemma match_loop_find rs url s :
  match_loop rs url s =
  match find_match rs url with
  | Some (r, m) =>
    match build_context r url m with
    | inr c => (inr (Some r), with_context c s)
    | inl e => (inl e, s)
    end
  | None => (inr None, s)
  end.
Proof.
  induction rs as [|r rs IH]; simpl; [done|].
  destruct (URLPattern_exec (urlPattern r) url) as [m|]; [|apply IH].
  by destruct (build_context r url m).
Qed.

Lemma matchRoute_find this url s :
  _matchRoute this url s =
  match first_context this url with
  | inl e => (inl e, s)
  | inr None => (inr None, s)
  | inr (Some (r, c)) => (inr (Some r), with_context c s)
  end.
Proof.
  unfold _matchRoute, first_context. rewrite match_loop_find.
  destruct (find_match (routes this) url) as [[r m]|]; [|done].
  by destruct (build_context r url m).
Qed.


(** The first match sits at the least index whose route accepts. *)
Lemma find_match_first rs url r m :
  find_match rs url = Some (r, m) →
  ∃ k, rs !! k = Some r ∧ URLPattern_exec (urlPattern r) url = Some m ∧
       ∀ k' r', k' < k → rs !! k' = Some r' → ¬ accepts r' url.
Proof.
  unfold accepts. revert r m.
  induction rs as [|r0 rs IH]; intros r m; simpl; [done|].
  destruct (URLPattern_exec (urlPattern r0) url) as [m0|] eqn:E.
  - intros [= <- <-]. exists 0. repeat split; [done|]. intros k' r' Hk. lia.
  - intros H. destruct (IH _ _ H) as (k & Hk & Hm & Hfirst).
    exists (S k). repeat split; [done..|].
    intros [|k'] r' Hlt Hr'; simpl in Hr'.
    + injection Hr' as <-. rewrite E. by intros [? ?].
    + apply (Hfirst k' r'); [lia|done].
Qed.

Lemma find_match_elem rs url r m :
  find_match rs url = Some (r, m) → r ∈ rs.
Proof.
  induction rs as [|r0 rs IH]; simpl; [done|].
  destruct (URLPattern_exec (urlPattern r0) url).
  - intros [= <- _]. left.
  - intros H. right. by apply IH.
Qed.

(** What [first_context] finds comes from the first match. *)
Lemma first_context_Some this url r c :
  first_context this url = inr (Some (r, c)) →
  ∃ m, find_match (routes this) url = Some (r, m) ∧
       build_context r url m = inr c.
Proof.
  unfold first_context.
  destruct (find_match (routes this) url) as [[r' m]|]; [|done].
  destruct (build_context r' url m) as [e|c'] eqn:Hc; [done|].
  intros [= <- <-]. by exists m.
Qed.

Lemma build_context_url r url m c :
  build_context r url m = inr c → ctx_url c = url.
Proof.
  unfold build_context.
  destruct (match title r with TitleFunction f => _ | TitleString t => _ end);
    [done|]. by intros [= <-].
Qed.

End Running.

(** ** The matching step, the table order, [render] and [popstate] *)

Section Matching.
Context `{host : Host}.

(** C2 (as amended).  The outcome of [_matchRoute] is the same whatever
    the state: the first route of the table that accepts the URL, or
    null, or the exception of the [title] function of that route.  The
    step never writes the current route, the location, the history, the
    title, the events or the application's state; when it returns a
    route it has itself written the current context, built from that
    match, and otherwise the state is untouched. *)
Theorem matchRoute_result_and_writes (this : Router) (url : URL) (s : State) :
  (_matchRoute this url s).1 =
    match first_context this url with
    | inl e => inl e
    | inr found => inr (fst <$> found)
    end ∧
  (∀ t, (_matchRoute this url t).1 = (_matchRoute this url s).1) ∧
  (∀ r, (_matchRoute this url s).1 = inr (Some r) →
     ∃ m, find_match (routes this) url = Some (r, m) ∧
          build_context r url m = inr (context (_matchRoute this url s).2)) ∧
  ((∀ r, (_matchRoute this url s).1 ≠ inr (Some r)) →
     (_matchRoute this url s).2 = s) ∧
  route (_matchRoute this url s).2 = route s ∧
  location (_matchRoute this url s).2 = location s ∧
  history (_matchRoute this url s).2 = history s ∧
  document_title (_matchRoute this url s).2 = document_title s ∧
  dispatched (_matchRoute this url s).2 = dispatched s ∧
  app (_matchRoute this url s).2 = app s.
Proof.
  assert (Hres : ∀ t, (_matchRoute this url t).1 =
                      match first_context this url with
                      | inl e => inl e
                      | inr found => inr (fst <$> found)
                      end).
  { intros t. rewrite matchRoute_find.
    by destruct (first_context this url) as [e|[[r c]|]]. }
  split; [apply Hres|]. split; [intros t; by rewrite !Hres|].
  rewrite matchRoute_find.
  destruct (first_context this url) as [e|[[r c]|]] eqn:Hfirst; simpl.
  - split_and!; try done. 
  - split_and!; try done.
    + intros r' [= <-]. by apply first_context_Some.
    + intros H. by destruct (H r).
  - split_and!; done.
Qed.


(** C10.  When no route accepts the location, [_onPopState] returns with
    the current route null and the current context as it was, and has
    dispatched one [route-changed] event, which carries that context;
    this holds whatever the fallback of the configuration is. *)
Theorem onPopState_without_match (this : Router) (s : State) :
  find_match (routes this) (location s) = None →
  (_onPopState this s).1 = inr tt ∧
  route (_onPopState this s).2 = None ∧
  context (_onPopState this s).2 = context s ∧
  dispatched (_onPopState this s).2 = dispatched s ++ [context s].
Proof.
  intros Hfind.
  assert (Hrun : _onPopState this s =
                 (inr tt, notified (context s) (with_route None s))).
  { unfold _onPopState. rewrite bind_run. unfold gets at 1.
    rewrite bind_run, matchRoute_find. unfold first_context.
    by rewrite Hfind. }
  by rewrite Hrun.
Qed.

(** [render()] without a current route returns [undefined]. *)
Lemma render_without_route (s : State) :
  route s = None → Router_render s = inr None.
Proof. unfold Router_render. by intros ->. Qed.

(** [render()] calls the [render] of the current route on the current
    context. *)
Lemma render_calls_route (s : State) r f :
  route s = Some r → render r = Some f →
  Router_render s = inr (Some (f (context s))).
Proof.
  unfold Router_render. intros -> ->. by destruct (context s).
Qed.

End Matching.

(** ** The click handler *)

Section Clicks.
Context `{host : Host}.

(** C9.  A click with the meta, ctrl or shift key, or on an anchor whose
    [target] is [_blank] or that has a [download] attribute, is left
    alone: the handler does not call [preventDefault] and does not call
    [navigate]; the event and the state are as before. *)
Theorem onAnchorClick_exclusions (this : Router) (e : MouseEvent) (s : State) :
  metaKey e = true ∨ ctrlKey e = true ∨ shiftKey e = true ∨
  (∃ a, clicked_anchor e = Some a ∧
        (getAttribute a "target" = Some "_blank" ∨
         hasAttribute a "download" = true)) →
  (∀ url, intercepted e s ≠ inr (Some url)) ∧
  ∃ out, _onAnchorClick this e s = (out, e, s) ∧
         ∀ settled, out ≠ Navigated settled.
Proof.
  intros Hex.
  assert (Hno : ∀ url, intercepted e s ≠ inr (Some url)).
  { intros url. unfold intercepted.
    destruct Hex as [->|[->|[->|(a & Ha & Hattr)]]];
      rewrite ?orb_true_r; try done.
    rewrite Ha.
    repeat case_match; try done.
    all: destruct Hattr as [Ht|Hd]; simplify_eq; try done.
    all: try (rewrite Hd in *; simpl in *; done).
    all: repeat case_bool_decide; simplify_eq; done. }
  split; [done|].
  unfold _onAnchorClick.
  destruct (intercepted e s) as [exn|[url|]] eqn:Hi.
  - by exists (Threw exn).
  - by destruct (Hno url).
  - by exists Returned.
Qed.

End Clicks.

(** ** The loops of [navigate] *)

Section Loops.
Context `{host : Host}.
Variable this : Router.

Lemma bind_assoc {A B C} (m : JS A) (f : A → JS B) (g : B → JS C) s :
  ((m ≫= f) ≫= g) s = (m ≫= λ x, f x ≫= g) s.
Proof. rewrite !bind_run. by destruct (m s) as [[e|x] s']. Qed.

Lemma match_or_fallback_resolved url s :
  match_or_fallback this url s =
  match resolved this (location s) url with
  | inl e => (inl e, s)
  | inr None => (inr None, s)
  | inr (Some (r, c)) => (inr (Some r), with_context c s)
  end.
Proof.
  unfold match_or_fallback, resolved, get_fallback.
  rewrite bind_run, matchRoute_find.
  destruct (first_context this url) as [e|[[r c]|]]; [done..|].
  rewrite bind_run. unfold new_URL.
  destruct (resolve_at (location s) (fallback_string this)) as [fb|]; [|done].
  rewrite matchRoute_find.
  by destruct (first_context this fb) as [e|[[r c]|]].
Qed.

(** The guard loop writes neither the location, the history, the title
    nor the events. *)
Lemma guard_step_window p url s res s' :
  guard_step this p url s = (res, s') → window s' = window s.
Proof.
  unfold guard_step. rewrite bind_run.
  assert (Hcall : ∀ r0 s0,
    match shouldNavigate p with Some h => call h | None => mret None end s
      = (r0, s0) → window s0 = window s).
  { intros r0 s0. destruct (shouldNavigate p) as [h|]; [|by intros [= _ <-]].
    unfold call. destruct (h (context s) (app s)). by intros [= _ <-]. }
  destruct (match shouldNavigate p with Some h => call h | None => mret None end s)
    as [[e|[g|]] s0] eqn:E; specialize (Hcall _ _ eq_refl);
    [by intros [= _ <-]| |by intros [= _ <-]].
  rewrite bind_run. unfold await_condition.
  destruct (condition g (app s0)) as [[e|[|]] a1]; [by intros [= _ <-]..|].
  rewrite bind_run. unfold new_URL at 1. simpl.
  destruct (resolve_at (location s0) (redirect g)) as [url'|];
    [|by intros [= _ <-]].
  rewrite bind_run, match_or_fallback_resolved.
  destruct (resolved this _ url') as [e|[[r c]|]]; by intros [= _ <-].
Qed.

Lemma guard_loop_window ps url s res s' :
  guard_loop this ps url s = (res, s') → window s' = window s.
Proof.
  revert url s. induction ps as [|p ps IH]; intros url s; simpl.
  - by intros [= _ <-].
  - rewrite bind_run.
    destruct (guard_step this p url s) as [[e|url1] s1] eqn:E;
      apply guard_step_window in E.
    + intros [= _ <-]. done.
    + intros H. apply IH in H. congruence.
Qed.



End Loops.

(** ** Unroutable targets *)

Section Unroutable.
Context `{host : Host}.


End Unroutable.

(** ** Runs of a prefix of the plugin list, and single steps *)

Section Steps.
Context `{host : Host}.
Variable this : Router.

Lemma commit_committed url loc s :
  pushState_location (pathname url +:+ search url) (location s) = Some loc →
  commit url s = (inr tt, committed url loc s).
Proof.
  intros Hp. unfold commit. rewrite bind_run.
  unfold pushState at 1. by rewrite Hp.
Qed.

Lemma commit_throws url s :
  pushState_location (pathname url +:+ search url) (location s) = None →
  commit url s = (inl (DOMException "SecurityError"), s).
Proof.
  intros Hp. unfold commit. rewrite bind_run.
  unfold pushState at 1. by rewrite Hp.
Qed.

Lemma guard_loop_app_returns pre post url s url1 s1 :
  guard_loop this pre url s = (inr url1, s1) →
  guard_loop this (pre ++ post) url s = guard_loop this post url1 s1.
Proof.
  revert url s. induction pre as [|p pre IH]; intros url s; simpl.
  - by intros [= <- <-].
  - rewrite !bind_run.
    destruct (guard_step this p url s) as [[e|u] s0]; [done|]. apply IH.
Qed.

Lemma before_loop_app_returns pre post s s1 :
  before_loop pre s = (inr tt, s1) →
  before_loop (pre ++ post) s = before_loop post s1.
Proof.
  revert s. induction pre as [|p pre IH]; intros s; simpl.
  - by intros [= <-].
  - rewrite !bind_run.
    destruct (before_step p s) as [[e|u] s0]; [done|]. apply IH.
Qed.

Lemma after_loop_app_returns pre post s s1 :
  after_loop pre s = (inr tt, s1) →
  after_loop (pre ++ post) s = after_loop post s1.
Proof.
  revert s. induction pre as [|p pre IH]; intros s; simpl.
  - by intros [= <-].
  - rewrite !bind_run.
    destruct (after_step p s) as [[e|u] s0]; [done|]. apply IH.
Qed.

(** A hook that throws ends the loop it is called from. *)
Lemma guard_loop_throws p post url s h e a' :
  shouldNavigate p = Some h → h (context s) (app s) = (inl e, a') →
  guard_loop this (p :: post) url s = (inl e, with_app a' s).
Proof.
  intros Hh He. simpl. rewrite bind_run. unfold guard_step.
  rewrite bind_run, Hh. unfold call. by rewrite He.
Qed.

Lemma before_loop_throws p post s h e a' :
  beforeNavigation p = Some h → h (context s) (app s) = (inl e, a') →
  before_loop (p :: post) s = (inl e, with_app a' s).
Proof.
  intros Hh He. simpl. rewrite bind_run. unfold before_step.
  rewrite Hh. unfold call. by rewrite He.
Qed.

Lemma after_loop_throws p post s h e a' :
  afterNavigation p = Some h → h (context s) (app s) = (inl e, a') →
  after_loop (p :: post) s = (inl e, with_app a' s).
Proof.
  intros Hh He. simpl. rewrite bind_run. unfold after_step.
  rewrite Hh. unfold call. by rewrite He.
Qed.

(** The step of a guard that says no. *)
Lemma guard_step_veto p url s h g a1 a2 url' :
  shouldNavigate p = Some h →
  h (context s) (app s) = (inr (Some g), a1) →
  condition g a1 = (inr false, a2) →
  resolve_at (location s) (redirect g) = Some url' →
  guard_step this p url s =
    (r ← match_or_fallback this url'; set_route r;; mret url')
      (with_app a2 s).
Proof.
  intros Hh Hg Hc Hu. unfold guard_step.
  rewrite bind_run, Hh. unfold call at 1. rewrite Hg.
  rewrite bind_run. unfold await_condition at 1. simpl. rewrite Hc.
  rewrite bind_run. unfold new_URL at 1. simpl. by rewrite Hu.
Qed.

(** The before and the after loop write the application's state only. *)
Lemma before_loop_frame ps s res s' :
  before_loop ps s = (res, s') → s' = with_app (app s') s.
Proof.
  revert s. induction ps as [|p ps IH]; intros s; simpl.
  - intros [= _ <-]. by destruct s.
  - rewrite bind_run. unfold before_step.
    destruct (beforeNavigation p) as [h|].
    + unfold call. destruct (h (context s) (app s)) as [[e|[]] a].
      * by intros [= _ <-].
      * intros H. by apply IH in H.
    + intros H. apply IH in H. by destruct s.
Qed.

Lemma after_loop_frame ps s res s' :
  after_loop ps s = (res, s') → s' = with_app (app s') s.
Proof.
  revert s. induction ps as [|p ps IH]; intros s; simpl.
  - intros [= _ <-]. by destruct s.
  - rewrite bind_run. unfold after_step.
    destruct (afterNavigation p) as [h|].
    + unfold call. destruct (h (context s) (app s)) as [[e|[]] a].
      * by intros [= _ <-].
      * intros H. by apply IH in H.
    + intros H. apply IH in H. by destruct s.
Qed.

(** Resolving a target writes the current context only. *)
Lemma match_or_fallback_frame url s res s' :
  match_or_fallback this url s = (res, s') → s' = with_context (context s') s.
Proof.
  rewrite match_or_fallback_resolved.
  destruct (resolved this _ url) as [e|[[r c]|]]; intros [= _ <-];
    by destruct s.
Qed.

(** [navigate] once the target is a URL and the first match is done. *)
Lemma navigate_resolved target url s r0 s0 :
  target_url (location s) target = Some url →
  match_or_fallback this url s = (inr r0, s0) →
  navigate this target s =
    (url1 ← guard_loop this (effective_plugins this r0) url;
     complete_navigation (effective_plugins this r0) url1) (with_route r0 s0).
Proof.
  intros Ht Hm. unfold navigate. rewrite bind_run. unfold gets at 1.
  rewrite Ht, bind_run, Hm. reflexivity.
Qed.

(** [navigate] when the target is no URL or the first match throws. *)
Lemma navigate_unresolved target s :
  target_url (location s) target = None →
  navigate this target s = (inl (TypeError "Invalid URL"), s).
Proof.
  intros Ht. unfold navigate. rewrite bind_run. unfold gets at 1.
  by rewrite Ht.
Qed.

Lemma navigate_match_throws target url s e s0 :
  target_url (location s) target = Some url →
  match_or_fallback this url s = (inl e, s0) →
  navigate this target s = (inl e, s0).
Proof.
  intros Ht Hm. unfold navigate. rewrite bind_run. unfold gets at 1.
  by rewrite Ht, bind_run, Hm.
Qed.

(** ... and once the guard loop and the before loop are done. *)
Lemma complete_navigation_before ps url s s2 loc :
  is_Some (route s) → before_loop ps s = (inr tt, s2) →
  pushState_location (pathname url +:+ search url) (location s2) = Some loc →
  complete_navigation ps url s = after_loop ps (committed url loc s2).
Proof.
  intros [r Hr] Hb Hp. unfold complete_navigation.
  rewrite bind_run. unfold gets. rewrite Hr.
  by rewrite bind_run, Hb, bind_run, (commit_committed _ _ _ Hp).
Qed.

Lemma complete_navigation_before_throws ps url s e s2 :
  is_Some (route s) → before_loop ps s = (inl e, s2) →
  complete_navigation ps url s = (inl e, s2).
Proof.
  intros [r Hr] Hb. unfold complete_navigation.
  rewrite bind_run. unfold gets. rewrite Hr.
  by rewrite bind_run, Hb.
Qed.

End Steps.

(** ** Guards that redirect, hooks that throw *)

Section Pipeline.
Context `{host : Host}.

(** C4.  An exception thrown by a [shouldNavigate] or a
    [beforeNavigation] hook rejects [navigate] with that exception, and
    the location, the history, the title and the events are as before the
    call; an exception thrown by an [afterNavigation] hook rejects
    [navigate] with that exception too, and the entry pushed, the title
    set and the event dispatched by the commit stay. *)
Theorem hook_exception_propagates
    (this : Router) (target : string + URL) (url : URL) (s : State)
    (r0 : option Route) (s0 : State) (pre : list Plugin) (p : Plugin)
    (post : list Plugin) (e : Exn) (a' : App) :
  target_url (location s) target = Some url →
  match_or_fallback this url s = (inr r0, s0) →
  effective_plugins this r0 = pre ++ p :: post →
  (∀ url1 s1 h,
     guard_loop this pre url (with_route r0 s0) = (inr url1, s1) →
     shouldNavigate p = Some h →
     h (context s1) (app s1) = (inl e, a') →
     navigate this target s = (inl e, with_app a' s1) ∧
     window (with_app a' s1) = window s) ∧
  (∀ url1 s1 s2 h,
     guard_loop this (pre ++ p :: post) url (with_route r0 s0)
       = (inr url1, s1) →
     is_Some (route s1) →
     before_loop pre s1 = (inr tt, s2) →
     beforeNavigation p = Some h →
     h (context s2) (app s2) = (inl e, a') →
     navigate this target s = (inl e, with_app a' s2) ∧
     window (with_app a' s2) = window s) ∧
  (∀ url1 s1 s2 loc s3 h,
     guard_loop this (pre ++ p :: post) url (with_route r0 s0)
       = (inr url1, s1) →
     is_Some (route s1) →
     before_loop (pre ++ p :: post) s1 = (inr tt, s2) →
     pushState_location (pathname url1 +:+ search url1) (location s2)
       = Some loc →
     after_loop pre (committed url1 loc s2) = (inr tt, s3) →
     afterNavigation p = Some h →
     h (context s3) (app s3) = (inl e, a') →
     navigate this target s = (inl e, with_app a' s3) ∧
     history (with_app a' s3)
       = history s ++ [pathname url1 +:+ search url1] ∧
     document_title (with_app a' s3) = ctx_title (context s2) ∧
     dispatched (with_app a' s3) = dispatched s ++ [context s2]).
Proof.
  intros Ht Hm Heff.
  pose proof (navigate_resolved this target url s r0 s0 Ht Hm) as Hnav.
  rewrite Heff in Hnav.
  assert (Hw0 : window (with_route r0 s0) = window s).
  { apply match_or_fallback_frame in Hm. rewrite Hm. done. }
  split_and!.
  - intros url1 s1 h Hpre Hh He. split.
    + rewrite Hnav, bind_run.
      rewrite (guard_loop_app_returns this _ _ _ _ _ _ Hpre).
      by rewrite (guard_loop_throws this p post url1 s1 h e a' Hh He).
    + apply guard_loop_window in Hpre. by rewrite <- Hw0, <- Hpre.
  - intros url1 s1 s2 h Hguard Hr Hpre Hh He.
    assert (Hb : before_loop (pre ++ p :: post) s1 = (inl e, with_app a' s2)).
    { rewrite (before_loop_app_returns _ _ _ _ Hpre).
      by apply before_loop_throws with (h := h). }
    split.
    + rewrite Hnav, bind_run, Hguard.
      by apply complete_navigation_before_throws.
    + apply guard_loop_window in Hguard. apply before_loop_frame in Hpre.
      rewrite <- Hw0, <- Hguard, Hpre. done.
  - intros url1 s1 s2 loc s3 h Hguard Hr Hbefore Hpush Hpre Hh He.
    assert (Hn : navigate this target s = (inl e, with_app a' s3)).
    { rewrite Hnav, bind_run, Hguard.
      rewrite (complete_navigation_before _ _ _ _ _ Hr Hbefore Hpush).
      rewrite (after_loop_app_returns _ _ _ _ Hpre).
      by apply after_loop_throws with (h := h). }
    split; [done|].
    apply guard_loop_window in Hguard. apply before_loop_frame in Hbefore.
    apply after_loop_frame in Hpre.
    assert (Hws : history s1 = history s ∧ dispatched s1 = dispatched s).
    { rewrite Hw0 in Hguard. unfold window in Hguard. by simplify_eq. }
    destruct Hws as [Hhist Hdisp].
    rewrite Hpre. simpl. rewrite <- Hhist, <- Hdisp.
    split_and!; [|done|]; by rewrite Hbefore.
Qed.

End Pipeline.

(** ** Navigations that go through *)

Section Success.
Context `{host : Host}.
Variable this : Router.







(** X5.  A target that no route accepts, with a fallback that is no URL:
    [navigate] is rejected with the [TypeError] of the [URL] constructor,
    not with the unroutable error, and nothing has changed, the current
    route included. *)
Theorem navigate_with_invalid_fallback
    (target : string + URL) (url : URL) (s : State) :
  target_url (location s) target = Some url →
  find_match (routes this) url = None →
  resolve_at (location s) (fallback_string this) = None →
  navigate this target s = (inl (TypeError "Invalid URL"), s).
Proof.
  intros Ht Hurl Hfb.
  apply (navigate_match_throws this target url s _ s Ht).
  rewrite match_or_fallback_resolved.
  unfold resolved, first_context. by rewrite Hurl, Hfb.
Qed.

(** The run of [_onPopState]. *)
Lemma onPopState_run (s : State) :
  _onPopState this s =
  match first_context this (location s) with
  | inl e => (inl e, s)
  | inr None => (inr tt, notified (context s) (with_route None s))
  | inr (Some (r, c)) =>
    (inr tt, notified c (with_route (Some r) (with_context c s)))
  end.
Proof.
  unfold _onPopState. rewrite bind_run. unfold gets at 1.
  rewrite bind_run, matchRoute_find.
  by destruct (first_context this (location s)) as [e|[[r c]|]].
Qed.

(** X6.  [_onPopState] runs no hook, pushes nothing and does not set the
    title of the document.  When the [title] function of the first route
    that accepts the location throws, the handler throws that exception
    and the state is untouched.  Otherwise it returns: the current route
    is that first route (null without one), the current context the one
    of that match (kept without one), and one event carries the current
    context. *)
Theorem onPopState_effect (s : State) :
  match first_context this (location s) with
  | inl e => _onPopState this s = (inl e, s)
  | inr found =>
    (_onPopState this s).1 = inr tt ∧
    route (_onPopState this s).2 = fst <$> found ∧
    context (_onPopState this s).2
      = match found with Some (_, c) => c | None => context s end ∧
    dispatched (_onPopState this s).2
      = dispatched s ++ [context (_onPopState this s).2]
  end ∧
  history (_onPopState this s).2 = history s ∧
  document_title (_onPopState this s).2 = document_title s ∧
  location (_onPopState this s).2 = location s ∧
  app (_onPopState this s).2 = app s.
Proof.
  rewrite onPopState_run.
  destruct (first_context this (location s)) as [e|[[r c]|]];
    split_and!; reflexivity.
Qed.

End Success.

(** ** The route a redirect commits *)

Section Redirect.
Context `{host : Host}.
Variable this : Router.


End Redirect.

(** ** Navigating twice to the current URL *)

Section Twice.
Context `{host : Host}.
Variable this : Router.

Lemma resolve_at_same_base l1 l2 ref :
  baseUrl_at l1 = baseUrl_at l2 → resolve_at l1 ref = resolve_at l2 ref.
Proof. unfold resolve_at. by intros ->. Qed.

Lemma resolved_same_base l1 l2 url :
  baseUrl_at l1 = baseUrl_at l2 → resolved this l1 url = resolved this l2 url.
Proof.
  intros Hb. unfold resolved. by rewrite (resolve_at_same_base l1 l2 _ Hb).
Qed.

(** The loops read of the window the base URL only: they commute with
    [rebase] when the base URL is the same. *)
Lemma guard_step_rebase w p url s :
  baseUrl_at (location w) = baseUrl_at (location s) →
  guard_step this p url (rebase w s) =
  let '(res, s') := guard_step this p url s in (res, rebase w s').
Proof.
  intros Hb. unfold guard_step. rewrite !bind_run.
  destruct (shouldNavigate p) as [h|]; [|done].
  unfold call. simpl.
  destruct (h (context s) (app s)) as [[e|[g|]] a0]; [done| |done].
  rewrite !bind_run. unfold await_condition. simpl.
  destruct (condition g a0) as [[e|[|]] a1]; [done..|].
  rewrite !bind_run. unfold new_URL. simpl.
  rewrite (resolve_at_same_base _ _ (redirect g) Hb).
  destruct (resolve_at (location s) (redirect g)) as [url'|]; [|done].
  rewrite !bind_run, !match_or_fallback_resolved. simpl.
  rewrite (resolved_same_base _ _ url' Hb).
  by destruct (resolved this (location s) url') as [e|[[r c]|]].
Qed.

Lemma guard_loop_rebase w ps url s :
  baseUrl_at (location w) = baseUrl_at (location s) →
  guard_loop this ps url (rebase w s) =
  let '(res, s') := guard_loop this ps url s in (res, rebase w s').
Proof.
  revert url s. induction ps as [|p ps IH]; intros url s Hb; simpl; [done|].
  rewrite !bind_run, guard_step_rebase by done.
  destruct (guard_step this p url s) as [[e|u] s0] eqn:E; [done|].
  apply IH. apply guard_step_window in E.
  unfold window in E. injection E as -> _ _ _. done.
Qed.

Lemma before_loop_rebase w ps s :
  before_loop ps (rebase w s) =
  let '(res, s') := before_loop ps s in (res, rebase w s').
Proof.
  revert s. induction ps as [|p ps IH]; intros s; simpl; [done|].
  rewrite !bind_run. unfold before_step.
  destruct (beforeNavigation p) as [h|].
  - unfold call. simpl.
    destruct (h (context s) (app s)) as [[e|[]] a0]; [done|].
    apply (IH (with_app a0 s)).
  - apply IH.
Qed.

Lemma after_loop_rebase w ps s :
  after_loop ps (rebase w s) =
  let '(res, s') := after_loop ps s in (res, rebase w s').
Proof.
  revert s. induction ps as [|p ps IH]; intros s; simpl; [done|].
  rewrite !bind_run. unfold after_step.
  destruct (afterNavigation p) as [h|].
  - unfold call. simpl.
    destruct (h (context s) (app s)) as [[e|[]] a0]; [done|].
    apply (IH (with_app a0 s)).
  - apply IH.
Qed.

(** Plugins without side effect leave the application's state. *)
Lemma guard_step_pure p url s res s' :
  pure_plugin p → guard_step this p url s = (res, s') → app s' = app s.
Proof.
  intros (Hguard & _ & _). unfold guard_step. rewrite bind_run.
  destruct (shouldNavigate p) as [h|] eqn:Hh; [|by intros [= _ <-]].
  destruct (Hguard h eq_refl) as [Hpure Hcond].
  unfold call. specialize (Hpure (context s) (app s)).
  specialize (Hcond (context s) (app s)).
  destruct (h (context s) (app s)) as [[e|[g|]] a0]; simpl in *; subst a0;
    [by intros [= _ <-]| |by intros [= _ <-]].
  specialize (Hcond g eq_refl (app s)).
  rewrite bind_run. unfold await_condition. simpl.
  destruct (condition g (app s)) as [[e|[|]] a1]; simpl in *; subst a1;
    [by intros [= _ <-]..|].
  rewrite bind_run. unfold new_URL at 1. simpl.
  destruct (resolve_at (location s) (redirect g)) as [url'|];
    [|by intros [= _ <-]].
  rewrite bind_run, match_or_fallback_resolved.
  destruct (resolved this _ url') as [e|[[r c]|]]; by intros [= _ <-].
Qed.

Lemma guard_loop_pure ps url s res s' :
  Forall pure_plugin ps → guard_loop this ps url s = (res, s') →
  app s' = app s.
Proof.
  intros Hps. revert url s.
  induction Hps as [|p ps Hp _ IH]; intros url s; simpl.
  - by intros [= _ <-].
  - rewrite bind_run.
    destruct (guard_step this p url s) as [[e|u] s0] eqn:E;
      apply (guard_step_pure _ _ _ _ _ Hp) in E.
    + by intros [= _ <-].
    + intros H. apply IH in H. congruence.
Qed.

Lemma before_loop_pure ps s res s' :
  Forall pure_plugin ps → before_loop ps s = (res, s') → app s' = app s.
Proof.
  intros Hps. revert s. induction Hps as [|p ps Hp _ IH]; intros s; simpl.
  - by intros [= _ <-].
  - destruct Hp as (_ & Hbefore & _).
    rewrite bind_run. unfold before_step.
    destruct (beforeNavigation p) as [h|].
    + unfold call. specialize (Hbefore h eq_refl (context s) (app s)).
      destruct (h (context s) (app s)) as [[e|[]] a0]; simpl in *; subst a0.
      * by intros [= _ <-].
      * intros H. by apply IH in H.
    + intros H. by apply IH in H.
Qed.

Lemma after_loop_pure ps s res s' :
  Forall pure_plugin ps → after_loop ps s = (res, s') → app s' = app s.
Proof.
  intros Hps. revert s. induction Hps as [|p ps Hp _ IH]; intros s; simpl.
  - by intros [= _ <-].
  - destruct Hp as (_ & _ & Hafter).
    rewrite bind_run. unfold after_step.
    destruct (afterNavigation p) as [h|].
    + unfold call. specialize (Hafter h eq_refl (context s) (app s)).
      destruct (h (context s) (app s)) as [[e|[]] a0]; simpl in *; subst a0.
      * by intros [= _ <-].
      * intros H. by apply IH in H.
    + intros H. by apply IH in H.
Qed.

Lemma effective_plugins_pure r :
  Forall pure_plugin (all_plugins this) → r ∈ routes this →
  Forall pure_plugin (effective_plugins this (Some r)).
Proof.
  unfold all_plugins, effective_plugins, global_plugins.
  rewrite !Forall_app. intros [Hglobal Hroutes] Hr. split; [done|].
  rewrite Forall_concat, Forall_fmap in Hroutes.
  rewrite Forall_forall in Hroutes. apply (Hroutes r Hr).
Qed.

(** What a call of [navigate] that returns has gone through. *)
Lemma complete_navigation_returns ps url s s' :
  complete_navigation ps url s = (inr tt, s') →
  is_Some (route s) ∧
  ∃ sb loc,
    before_loop ps s = (inr tt, sb) ∧
    pushState_location (pathname url +:+ search url) (location sb)
      = Some loc ∧
    after_loop ps (committed url loc sb) = (inr tt, s').
Proof.
  unfold complete_navigation. rewrite bind_run. unfold gets.
  destruct (route s) as [r|]; [|done].
  rewrite bind_run.
  destruct (before_loop ps s) as [[e|[]] sb]; [done|].
  rewrite bind_run.
  destruct (pushState_location (pathname url +:+ search url) (location sb))
    as [loc|] eqn:Hp.
  - rewrite (commit_committed _ _ _ Hp). intros H. split; [by exists r|].
    by exists sb, loc.
  - by rewrite (commit_throws _ _ Hp).
Qed.

End Twice.

Section TwiceTheorem.
Context `{host : Host}.

(** C8 (as amended).  When the URL is the current one, the plugins have
    no side effect, a first call of [navigate] with it returns, and the
    window it leaves has the same base URL and a history that accepts
    what it accepted before, a second call with it returns too; each of
    the two dispatches one event, and the two events carry the same
    context, which is the current context after either call. *)
Theorem navigate_twice_same_context
    (this : Router) (url : URL) (s s1 : State) :
  Forall pure_plugin (all_plugins this) →
  is_current this url s →
  navigate this (inr url) s = (inr tt, s1) →
  baseUrl_at (location s1) = baseUrl_at (location s) →
  (∀ entry, is_Some (pushState_location entry (location s)) →
            is_Some (pushState_location entry (location s1))) →
  ∃ s2 c,
    navigate this (inr url) s1 = (inr tt, s2) ∧
    dispatched s1 = dispatched s ++ [c] ∧
    dispatched s2 = dispatched s ++ [c; c] ∧
    context s1 = c ∧ context s2 = c.
Proof.
  intros Hpure (r & m & Hfind & _ & HC) Hfirst Hbase Hpush.
  set (C := context s) in *.
  set (ps := effective_plugins this (Some r)).
  assert (Hps : Forall pure_plugin ps).
  { apply effective_plugins_pure; [done|]. by eapply find_match_elem. }
  assert (Hres : ∀ t, match_or_fallback this url t
                      = (inr (Some r), with_context C t)).
  { intros t. rewrite match_or_fallback_resolved.
    unfold resolved, first_context. by rewrite Hfind, HC. }
  assert (Hnav : ∀ t, navigate this (inr url) t =
            (u ← guard_loop this ps url; complete_navigation ps u)
              (with_route (Some r) (with_context C t))).
  { intros t. by apply navigate_resolved. }
  set (s0 := with_route (Some r) (with_context C s)).
  rewrite Hnav, bind_run in Hfirst. fold s0 in Hfirst.
  destruct (guard_loop this ps url s0) as [[e|u1] sg] eqn:Hguard; [done|].
  apply complete_navigation_returns in Hfirst
    as (Hroute & sb & loc1 & Hbefore & Hpush1 & Hafter).
  pose proof (guard_loop_pure this _ _ _ _ _ Hps Hguard) as Hag.
  pose proof (before_loop_pure _ _ _ _ Hps Hbefore) as Hab.
  pose proof (after_loop_pure _ _ _ _ Hps Hafter) as Haa.
  pose proof (guard_loop_window this _ _ _ _ _ Hguard) as Hwg.
  pose proof (before_loop_frame _ _ _ _ Hbefore) as Hfb.
  pose proof (after_loop_frame _ _ _ _ Hafter) as Hfa.
  assert (Hlocb : location sb = location s).
  { rewrite Hfb. simpl. unfold window in Hwg. by injection Hwg as -> _ _ _. }
  assert (Ht0 : with_route (Some r) (with_context C s1) = rebase s1 s0).
  { unfold rebase, with_route, with_context. simpl. f_equal.
    rewrite Haa. simpl. rewrite Hab, Hag. done. }
  destruct (Hpush (pathname u1 +:+ search u1)) as [loc2 Hpush2].
  { rewrite <- Hlocb. by exists loc1. }
  set (W := committed u1 loc2 (rebase s1 sb)).
  assert (HW : committed u1 loc2 (rebase s1 sb)
               = rebase W (committed u1 loc1 sb)) by done.
  exists (rebase W s1), (context sb).
  assert (Hd1 : dispatched s1 = dispatched s ++ [context sb]).
  { rewrite Hfa. simpl. rewrite Hfb. simpl.
    unfold window in Hwg. injection Hwg as _ _ _ Hdg. by rewrite Hdg. }
  split_and!.
  - rewrite Hnav, Ht0, bind_run, guard_loop_rebase, Hguard by done.
    assert (Hroute' : is_Some (route (rebase s1 sg))) by done.
    assert (Hbefore' : before_loop ps (rebase s1 sg) = (inr tt, rebase s1 sb)).
    { by rewrite before_loop_rebase, Hbefore. }
    rewrite (complete_navigation_before _ _ _ _ loc2 Hroute' Hbefore')
      by done.
    by rewrite HW, after_loop_rebase, Hafter.
  - done.
  - simpl. rewrite Hd1, <- app_assoc. done.
  - by rewrite Hfa.
  - simpl. by rewrite Hfa.
Qed.

End TwiceTheorem.

(** ** The constructor *)

Section Constructor.
Context `{host : Host}.

Lemma compile_all_returns loc ds rs :
  compile_all loc ds = inr rs →
  map definition rs = ds ∧
  Forall2 (λ d r, URLPattern_new (path d) loc = Some (urlPattern r)) ds rs.
Proof.
  revert rs. induction ds as [|d ds IH]; intros rs; simpl.
  - intros [= <-]. split; [done|constructor].
  - unfold compile. destruct (URLPattern_new (path d) loc) as [p|] eqn:Hp;
      [|done].
    destruct (compile_all loc ds) as [e|rs'] eqn:Hrs; [done|].
    intros [= <-]. destruct (IH rs' eq_refl) as [Hmap Hall]. simpl.
    split; [by rewrite Hmap|]. by constructor.
Qed.

Lemma compile_all_throws loc ds :
  (∃ e, compile_all loc ds = inl e) ↔
  Exists (λ d, URLPattern_new (path d) loc = None) ds.
Proof.
  induction ds as [|d ds IH]; simpl.
  - split; [by intros [e ?]|by intros H%Exists_nil].
  - rewrite Exists_cons, <- IH. unfold compile.
    destruct (URLPattern_new (path d) loc) as [p|] eqn:Hp.
    + destruct (compile_all loc ds) as [e|rs] eqn:Hrs.
      * split; [intros _; right; by exists e|intros _; by exists e].
      * split; [by intros [e ?]|]. intros [?|[e ?]]; done.
    + split; [intros _; by left|intros _; by eexists].
Qed.

(** X1.  The constructor compiles every route definition of the configuration,
    in order, against the location: the routes of the router are the
    definitions with their patterns; it throws exactly when the template
    of some definition does not compile. *)
Theorem Router_new_compiles_every_route (cfg : Config) (loc : URL) :
  (∀ this, Router_new cfg loc = inr this →
     config this = cfg ∧
     map definition (routes this) = config_routes cfg ∧
     Forall2 (λ d r, URLPattern_new (path d) loc = Some (urlPattern r))
       (config_routes cfg) (routes this)) ∧
  ((∃ e, Router_new cfg loc = inl e) ↔
   Exists (λ d, URLPattern_new (path d) loc = None) (config_routes cfg)).
Proof.
  unfold Router_new. split.
  - intros this.
    destruct (compile_all loc (config_routes cfg)) as [e|rs] eqn:Hrs; [done|].
    intros [= <-]. simpl. split; [done|]. by apply compile_all_returns.
  - rewrite <- compile_all_throws.
    destruct (compile_all loc (config_routes cfg)) as [e|rs].
    + split; intros _; by exists e.
    + split; by intros [e ?].
Qed.

End Constructor.

(** ** What a navigation leaves in the window *)

Section Outcome.
Context `{host : Host}.
Variable this : Router.

Lemma complete_navigation_outcome ps url s res s' :
  complete_navigation ps url s = (res, s') →
  (∃ e, res = inl e ∧ window s' = window s) ∨ commits url s s'.
Proof.
  unfold complete_navigation. rewrite bind_run. unfold gets.
  destruct (route s) as [r|] eqn:Hr.
  - rewrite bind_run.
    destruct (before_loop ps s) as [[e|[]] sb] eqn:Hb;
      pose proof (before_loop_frame _ _ _ _ Hb) as Hsb.
    + intros [= <- <-]. left. exists e. by rewrite Hsb.
    + rewrite bind_run.
      destruct (pushState_location (pathname url +:+ search url)
                  (location sb)) as [loc|] eqn:Hp.
      * rewrite (commit_committed _ _ _ Hp). intros Ha.
        pose proof (after_loop_frame _ _ _ _ Ha) as Hsa.
        right. rewrite Hsb in Hp. simpl in Hp.
        rewrite Hsa, Hsb. unfold commits. simpl.
        split_and!; [done..|]. by exists r.
      * rewrite (commit_throws _ _ Hp). intros [= <- <-].
        left. eexists. by rewrite Hsb.
  - intros [= <- <-]. left. by eexists.
Qed.

(** X4.  With hooks that keep to the application's state (they neither
    write the context they are given nor reach the router or the
    window), whatever the target and the state, [navigate] either is
    rejected with the location, the history, the title and the events as
    they were, or has made exactly one commit: one entry pushed, one
    event dispatched, which carries the current context, whose title is
    the document's; a call that returns has made it. *)
Theorem navigate_commits_once_or_nothing
    (target : string + URL) (s : State) :
  (∃ e, (navigate this target s).1 = inl e ∧
        window (navigate this target s).2 = window s) ∨
  (∃ url, commits url s (navigate this target s).2).
Proof.
  destruct (target_url (location s) target) as [url|] eqn:Ht.
  - destruct (match_or_fallback this url s) as [[e|r0] s0] eqn:Hm;
      pose proof (match_or_fallback_frame this _ _ _ _ Hm) as Hs0.
    + left. exists e. rewrite (navigate_match_throws this _ _ _ _ _ Ht Hm).
      split; [done|]. simpl. by rewrite Hs0.
    + rewrite (navigate_resolved this target url s r0 s0 Ht Hm), bind_run.
      assert (Hw0 : window (with_route r0 s0) = window s) by by rewrite Hs0.
      destruct (guard_loop this (effective_plugins this r0) url
                  (with_route r0 s0)) as [[e|u] sg] eqn:Hg;
        pose proof (guard_loop_window this _ _ _ _ _ Hg) as Hwg.
      * left. exists e. split; [done|]. simpl. by rewrite Hwg.
      * destruct (complete_navigation (effective_plugins this r0) u sg)
          as [res s'] eqn:Hc.
        apply complete_navigation_outcome in Hc as [(e & -> & Hw)|Hc].
        -- left. exists e. split; [done|]. simpl. by rewrite Hw, Hwg.
        -- right. exists u. simpl. unfold commits in *.
           unfold window in *. rewrite Hw0 in Hwg.
           injection Hwg as Hl Hh Ht' Hd.
           by rewrite <- Hl, <- Hh, <- Hd.
  - left. rewrite (navigate_unresolved this _ _ Ht). by eexists.
Qed.

End Outcome.

(** ** The current route and the current context agree *)

Section Sync.
Context `{host : Host}.
Variable this : Router.

Lemma in_sync_same s t :
  route t = route s → context t = context s →
  in_sync this s → in_sync this t.
Proof. unfold in_sync. intros -> ->. done. Qed.

Lemma in_sync_without_route s : route s = None → in_sync this s.
Proof. unfold in_sync. by intros ->. Qed.

Lemma first_context_in_sync url r c s :
  first_context this url = inr (Some (r, c)) →
  route s = Some r → context s = c → in_sync this s.
Proof.
  intros (m & Hfind & Hc)%first_context_Some Hr Hs r0.
  rewrite Hr, Hs. intros [= <-].
  split; [by eapply find_match_elem|].
  destruct (find_match_first _ _ _ _ Hfind) as (k & _ & Hm & _).
  exists m. by rewrite (build_context_url _ _ _ _ Hc).
Qed.

Lemma match_or_fallback_in_sync url s r s0 :
  match_or_fallback this url s = (inr r, s0) → in_sync this (with_route r s0).
Proof.
  rewrite match_or_fallback_resolved. unfold resolved.
  destruct (first_context this url) as [e|[[r1 c1]|]] eqn:Hurl; [done| |].
  - intros [= <- <-]. by eapply first_context_in_sync.
  - destruct (resolve_at (location s) (fallback_string this)) as [fb|];
      [|done].
    destruct (first_context this fb) as [e|[[r1 c1]|]] eqn:Hfb; [done| |].
    + intros [= <- <-]. by eapply first_context_in_sync.
    + intros [= <- <-]. by apply in_sync_without_route.
Qed.

Lemma match_or_fallback_throws url s e s0 :
  match_or_fallback this url s = (inl e, s0) → s0 = s.
Proof.
  rewrite match_or_fallback_resolved.
  destruct (resolved this _ url) as [e'|[[r c]|]]; by intros [= _ <-].
Qed.

Lemma guard_step_in_sync p url s res s' :
  in_sync this s → guard_step this p url s = (res, s') → in_sync this s'.
Proof.
  intros Hs. unfold guard_step. rewrite bind_run.
  assert (Hcall : ∀ r0 s0,
    match shouldNavigate p with Some h => call h | None => mret None end s
      = (r0, s0) → in_sync this s0).
  { intros r0 s0. destruct (shouldNavigate p) as [h|]; [|by intros [= _ <-]].
    unfold call. destruct (h (context s) (app s)). by intros [= _ <-]. }
  destruct (match shouldNavigate p with Some h => call h | None => mret None end s)
    as [[e|[g|]] s0] eqn:E; specialize (Hcall _ _ eq_refl);
    [by intros [= _ <-]| |by intros [= _ <-]].
  rewrite bind_run. unfold await_condition.
  destruct (condition g (app s0)) as [[e|[|]] a1]; [by intros [= _ <-]..|].
  rewrite bind_run. unfold new_URL at 1. simpl.
  destruct (resolve_at (location s0) (redirect g)) as [url'|];
    [|by intros [= _ <-]].
  rewrite bind_run.
  destruct (match_or_fallback this url' (with_app a1 s0)) as [[e|r] s1] eqn:Hm.
  - intros [= _ <-]. by rewrite (match_or_fallback_throws _ _ _ _ Hm).
  - intros [= _ <-]. by apply (match_or_fallback_in_sync _ _ _ _ Hm).
Qed.

Lemma guard_loop_in_sync ps url s res s' :
  in_sync this s → guard_loop this ps url s = (res, s') → in_sync this s'.
Proof.
  revert url s. induction ps as [|p ps IH]; intros url s Hs; simpl.
  - by intros [= _ <-].
  - rewrite bind_run.
    destruct (guard_step this p url s) as [[e|u] s1] eqn:E;
      apply (guard_step_in_sync _ _ _ _ _ Hs) in E.
    + by intros [= _ <-].
    + by apply IH.
Qed.

Lemma complete_navigation_in_sync ps url s res s' :
  in_sync this s → complete_navigation ps url s = (res, s') →
  in_sync this s'.
Proof.
  intros Hs. unfold complete_navigation. rewrite bind_run. unfold gets.
  destruct (route s) as [r|]; [|by intros [= _ <-]].
  rewrite bind_run.
  destruct (before_loop ps s) as [[e|[]] sb] eqn:Hb;
    pose proof (before_loop_frame _ _ _ _ Hb) as Hsb.
  - intros [= _ <-]. by rewrite Hsb.
  - rewrite bind_run.
    destruct (pushState_location (pathname url +:+ search url)
                (location sb)) as [loc|] eqn:Hp.
    + rewrite (commit_committed _ _ _ Hp). intros Ha.
      apply after_loop_frame in Ha. rewrite Ha, Hsb. done.
    + rewrite (commit_throws _ _ Hp). intros [= _ <-]. by rewrite Hsb.
Qed.

Lemma navigate_in_sync target s :
  in_sync this s → in_sync this (navigate this target s).2.
Proof.
  intros Hs. destruct (target_url (location s) target) as [url|] eqn:Ht.
  - destruct (match_or_fallback this url s) as [[e|r0] s0] eqn:Hm.
    + rewrite (navigate_match_throws this _ _ _ _ _ Ht Hm). simpl.
      by rewrite (match_or_fallback_throws _ _ _ _ Hm).
    + rewrite (navigate_resolved this target url s r0 s0 Ht Hm), bind_run.
      pose proof (match_or_fallback_in_sync _ _ _ _ Hm) as H0.
      destruct (guard_loop this (effective_plugins this r0) url
                  (with_route r0 s0)) as [[e|u] sg] eqn:Hg;
        apply (guard_loop_in_sync _ _ _ _ _ H0) in Hg; [done|].
      destruct (complete_navigation (effective_plugins this r0) u sg)
        as [res s'] eqn:Hc.
      by apply (complete_navigation_in_sync _ _ _ _ _ Hg) in Hc.
  - by rewrite (navigate_unresolved this _ _ Ht).
Qed.

Lemma onPopState_in_sync s :
  in_sync this s → in_sync this (_onPopState this s).2.
Proof.
  intros Hs. rewrite onPopState_run.
  destruct (first_context this (location s)) as [e|[[r c]|]] eqn:Hfirst.
  - done.
  - by apply (first_context_in_sync (location s) r c).
  - by apply in_sync_without_route.
Qed.

Lemma onAnchorClick_in_sync e s :
  in_sync this s → in_sync this (_onAnchorClick this e s).2.
Proof.
  intros Hs. unfold _onAnchorClick.
  destruct (intercepted e s) as [exn|[url|]]; [done| |done].
  pose proof (navigate_in_sync (inr url) s Hs) as Hn.
  by destruct (navigate this (inr url) s).
Qed.

(** X7.  In every state a router goes through, with hooks that keep to
    the application's state (they neither write the context they are
    given nor reach the router or the window) and whether calls return
    or throw, a current route is a route of the table that accepts the
    URL of the current context, and the current context is the one built
    from that match. *)
Theorem reachable_in_sync (s : State) :
  reachable this s → in_sync this s.
Proof.
  induction 1 as [loc t a|target s _ IH|loc s _ IH|e s _ IH].
  - by apply in_sync_without_route.
  - by apply navigate_in_sync.
  - by apply onPopState_in_sync.
  - by apply onAnchorClick_in_sync.
Qed.

End Sync.

(** ** The query of a context, [render] after a navigation, clicks *)

Section Further.
Context `{host : Host}.

Lemma foldl_insert_other (k : string) (l : list (string * string))
    (o : gmap string string) :
  k ∉ l.*1 →
  foldl (λ o kv, <[kv.1 := kv.2]> o) o l !! k = o !! k.
Proof.
  revert o. induction l as [|[k' v'] l IH]; intros o; simpl; [done|].
  rewrite not_elem_of_cons. intros [Hne Hl].
  rewrite IH by done. by rewrite lookup_insert_ne.
Qed.

Lemma foldl_insert_last (k v : string) (l1 l2 : list (string * string))
    (o : gmap string string) :
  k ∉ l2.*1 →
  foldl (λ o kv, <[kv.1 := kv.2]> o) o (l1 ++ (k, v) :: l2) !! k = Some v.
Proof.
  intros Hl2. rewrite foldl_app. simpl.
  rewrite foldl_insert_other by done. apply lookup_insert_eq.
Qed.

(** X8.  The query of a built context maps a key to the value of its last
    entry in the search string, and has no other keys; it does not
    depend on the route (whose [title] must have returned for the
    context to be built). *)
Theorem query_last_entry_wins
    (r : Route) (url : URL) (m : URLPatternResult) (c : Context)
    (k : string) :
  build_context r url m = inr c →
  (∀ l1 v l2,
     URLSearchParams (search url) = l1 ++ (k, v) :: l2 → k ∉ l2.*1 →
     ctx_query c !! k = Some v) ∧
  (k ∉ (URLSearchParams (search url)).*1 → ctx_query c !! k = None).
Proof.
  unfold build_context, fromEntries.
  destruct (match title r with TitleFunction f => _ | TitleString t => _ end);
    [done|].
  intros [= <-]. simpl. split.
  - intros l1 v l2 -> Hl2. by apply foldl_insert_last.
  - intros Hk. by rewrite foldl_insert_other.
Qed.

Variable this : Router.

(** X9.  After a call of [navigate] that returns, [render()] calls the
    [render] of the current route on the context that the last event
    dispatched carries. *)
Theorem render_after_navigate
    (target : string + URL) (s : State) (r : Route)
    (f : Context → RenderResult) :
  (navigate this target s).1 = inr tt →
  route (navigate this target s).2 = Some r →
  render r = Some f →
  ∃ c, last (dispatched (navigate this target s).2) = Some c ∧
       Router_render (navigate this target s).2 = inr (Some (f c)).
Proof.
  intros Hret Hr Hf. exists (context (navigate this target s).2).
  split; [|by apply render_calls_route with (r := r)].
  destruct (target_url (location s) target) as [url|] eqn:Ht;
    [|by rewrite (navigate_unresolved this _ _ Ht) in Hret].
  destruct (match_or_fallback this url s) as [[e|r0] s0] eqn:Hm;
    [by rewrite (navigate_match_throws this _ _ _ _ _ Ht Hm) in Hret|].
  rewrite (navigate_resolved this target url s r0 s0 Ht Hm), bind_run in *.
  destruct (guard_loop this (effective_plugins this r0) url
              (with_route r0 s0)) as [[e|u] sg]; [done|].
  destruct (complete_navigation (effective_plugins this r0) u sg)
    as [res s'] eqn:Hc.
  simpl in *. subst res.
  apply complete_navigation_outcome in Hc as [(e & ? & _)|Hc]; [done|].
  destruct Hc as (_ & _ & _ & Hd & _). rewrite Hd. apply last_snoc.
Qed.

(** X10.  The clicks the handler leaves alone besides those with a modifier, a
    [download] attribute or a [_blank] target: an event already
    prevented, another button than the main one, no anchor in the
    composed path, an anchor without [href], a mail link, the current
    URL, a [target] other than the empty one and [_self].  The handler
    returns, the event and the state as they were; it throws instead
    only when the [href] of the anchor is no URL. *)
Theorem onAnchorClick_ignores (e : MouseEvent) (s : State) :
  defaultPrevented e = true ∨ button e ≠ 0%Z ∨ clicked_anchor e = None ∨
  (∃ a, clicked_anchor e = Some a ∧
     (el_href a = None ∨ el_href a = Some "" ∨
      (∃ h, el_href a = Some h ∧
            (includes "mailto:" h = true ∨
             ∃ url, URL_new h None = Some url ∧
                    href (location s) = href url)) ∨
      (∃ t, getAttribute a "target" = Some t ∧ t ≠ "" ∧ t ≠ "_self"))) →
  (∀ url, intercepted e s ≠ inr (Some url)) ∧
  ∃ out, _onAnchorClick this e s = (out, e, s) ∧
         (out = Returned ∨
          out = Threw (TypeError "Invalid URL") ∧
          ∃ a h, clicked_anchor e = Some a ∧ el_href a = Some h ∧
                 URL_new h None = None).
Proof.
  intros Hex.
  assert (Hno : ∀ url, intercepted e s ≠ inr (Some url)).
  { intros url. unfold intercepted.
    destruct Hex as [->|[Hb|[Hn|(a & Ha & Hcase)]]].
    - done.
    - rewrite (bool_decide_eq_false_2 _ Hb). simpl.
      by rewrite orb_true_r.
    - rewrite Hn. by destruct (_ || _).
    - rewrite Ha. destruct (_ || _); [done|].
      destruct Hcase as [->|[->|[(h & -> & Hh)|(t & Ht & Ht1 & Ht2)]]];
        [done|done| |].
      + case_bool_decide; [done|].
        destruct Hh as [Hmail|(url' & -> & Hsame)].
        * rewrite Hmail, orb_true_r.
          destruct (URL_new h None); [|done]. by case_bool_decide.
        * by rewrite bool_decide_eq_true_2.
      + rewrite Ht. repeat case_match; try done.
        all: repeat case_bool_decide; simplify_eq; done. }
  split; [done|].
  unfold _onAnchorClick.
  destruct (intercepted e s) as [exn|[url|]] eqn:Hi.
  - exists (Threw exn). split; [done|]. right.
    unfold intercepted in Hi. repeat case_match; simplify_eq.
    split; [done|]. eauto.
  - by destruct (Hno url).
  - exists Returned. split; [done|]. by left.
Qed.


End Further.

(** ** The plugins of the other routes play no part *)

Section SameRouting.
Context `{host : Host}.
Variables this that : Router.
Hypothesis Hsame : same_routing this that.

Lemma same_but_plugins_refl s : same_but_plugins s s.
Proof using All. by repeat split. Qed.

Lemma bind_same {A B} (RA : A → A → Prop) (RB : B → B → Prop)
    (m m' : JS A) (f f' : A → JS B) s t :
  same_run RA (m s) (m' t) →
  (∀ x x' s' t', RA x x' → same_but_plugins s' t' →
                 same_run RB (f x s') (f' x' t')) →
  same_run RB ((m ≫= f) s) ((m' ≫= f') t).
Proof using All.
  intros [Hst Hres] Hf. rewrite !bind_run.
  destruct (m s) as [[e|x] s'], (m' t) as [[e'|x'] t']; simpl in *;
    try done.
  by apply Hf.
Qed.

Lemma find_match_without rs url :
  find_match (map without_plugins rs) url =
  (λ rm, (without_plugins rm.1, rm.2)) <$> find_match rs url.
Proof using All.
  induction rs as [|r rs IH]; simpl; [done|].
  by destruct (URLPattern_exec (urlPattern r) url).
Qed.

(** What the first match finds, up to the plugins of the route. *)
Lemma first_context_without (R : Router) url :
  match first_context R url with
  | inr (Some (r, c)) => inr (Some (without_plugins r, c))
  | other => other
  end =
  match find_match (map without_plugins (routes R)) url with
  | Some (r, m) =>
    match build_context r url m with
    | inr c => inr (Some (r, c))
    | inl e => inl e
    end
  | None => inr None
  end.
Proof using All.
  unfold first_context. rewrite find_match_without.
  destruct (find_match (routes R) url) as [[r m]|]; simpl; [|done].
  change (build_context (without_plugins r) url m)
    with (build_context r url m).
  by destruct (build_context r url m).
Qed.

Lemma first_context_same url :
  match first_context this url, first_context that url with
  | inl e, inl e' => e = e'
  | inr None, inr None => True
  | inr (Some (r, c)), inr (Some (r', c')) =>
    without_plugins r = without_plugins r' ∧ c = c'
  | _, _ => False
  end.
Proof using All.
  pose proof (first_context_without this url) as H1.
  pose proof (first_context_without that url) as H2.
  destruct Hsame as (_ & _ & Hroutes). rewrite Hroutes, <- H2 in H1.
  destruct (first_context this url) as [e|[[r c]|]],
    (first_context that url) as [e'|[[r' c']|]];
    clear H2; try discriminate H1; try done.
  - by injection H1.
  - assert (Hp : (without_plugins r, c) = (without_plugins r', c'))
      by congruence.
    split; [exact (f_equal fst Hp)|exact (f_equal snd Hp)].
Qed.

Lemma resolved_same loc url :
  match resolved this loc url, resolved that loc url with
  | inl e, inl e' => e = e'
  | inr None, inr None => True
  | inr (Some (r, c)), inr (Some (r', c')) =>
    without_plugins r = without_plugins r' ∧ c = c'
  | _, _ => False
  end.
Proof using All.
  unfold resolved. pose proof (first_context_same url) as Hurl.
  assert (Hfb : fallback_string this = fallback_string that).
  { unfold fallback_string. destruct Hsame as (-> & _). done. }
  rewrite Hfb.
  destruct (first_context this url) as [e|[[r c]|]],
    (first_context that url) as [e'|[[r' c']|]]; try done.
  destruct (resolve_at loc (fallback_string that)) as [fb|]; [|done].
  apply first_context_same.
Qed.

Lemma match_or_fallback_same url s t :
  same_but_plugins s t →
  same_run same_route (match_or_fallback this url s)
    (match_or_fallback that url t).
Proof using All.
  intros Hst. rewrite !match_or_fallback_resolved.
  destruct Hst as (Hc & Hr & Hl & Hh & Ht & Hd & Ha). rewrite Hl.
  pose proof (resolved_same (location t) url) as Hres.
  destruct (resolved this (location t) url) as [e|[[r c]|]],
    (resolved that (location t) url) as [e'|[[r' c']|]]; try done.
  all: repeat split; simpl; try done.
  - by destruct Hres.
  - unfold same_route. simpl. destruct Hres as [Hrr _]. by rewrite Hrr.
Qed.

Lemma call_same {A} (h : Hook A) s t :
  same_but_plugins s t → same_run eq (call h s) (call h t).
Proof using All.
  intros (Hc & Hr & Hl & Hh & Ht & Hd & Ha). unfold call.
  rewrite Hc, Ha. destruct (h (context t) (app t)) as [[e|x] a].
  - by repeat split.
  - by repeat split.
Qed.

Lemma guard_step_same p url s t :
  same_but_plugins s t →
  same_run eq (guard_step this p url s) (guard_step that p url t).
Proof using All.
  intros Hst. unfold guard_step.
  apply (bind_same eq).
  { destruct (shouldNavigate p) as [h|]; [by apply call_same|].
    by split. }
  intros result ? s1 t1 <- Hst1. destruct result as [g|]; [|by split].
  apply (bind_same eq).
  { destruct Hst1 as (Hc & Hr & Hl & Hh & Ht & Hd & Ha).
    unfold await_condition. rewrite Ha.
    destruct (condition g (app t1)) as [[e|b] a]; by repeat split. }
  intros c ? s2 t2 <- Hst2. destruct c; [by split|].
  apply (bind_same eq).
  { destruct Hst2 as (Hc & Hr & Hl & Hh & Ht & Hd & Ha).
    unfold new_URL. rewrite Hl.
    destruct (resolve_at (location t2) (redirect g)); by repeat split. }
  intros url' ? s3 t3 <- Hst3.
  apply (bind_same same_route); [by apply match_or_fallback_same|].
  intros r r' s4 t4 Hrr Hst4.
  apply (bind_same eq).
  { destruct Hst4 as (Hc & Hr & Hl & Hh & Ht & Hd & Ha).
    by repeat split. }
  intros [] ? s5 t5 _ Hst5. by split.
Qed.

Lemma guard_loop_same ps url s t :
  same_but_plugins s t →
  same_run eq (guard_loop this ps url s) (guard_loop that ps url t).
Proof using All.
  revert url s t. induction ps as [|p ps IH]; intros url s t Hst; simpl.
  - by split.
  - apply (bind_same eq); [by apply guard_step_same|].
    intros u ? s1 t1 <- Hst1. by apply IH.
Qed.

Lemma before_loop_same ps s t :
  same_but_plugins s t → same_run eq (before_loop ps s) (before_loop ps t).
Proof using All.
  revert s t. induction ps as [|p ps IH]; intros s t Hst; simpl.
  - by split.
  - apply (bind_same eq).
    { unfold before_step. destruct (beforeNavigation p);
        [by apply call_same|by split]. }
    intros [] ? s1 t1 _ Hst1. by apply IH.
Qed.

Lemma after_loop_same ps s t :
  same_but_plugins s t → same_run eq (after_loop ps s) (after_loop ps t).
Proof using All.
  revert s t. induction ps as [|p ps IH]; intros s t Hst; simpl.
  - by split.
  - apply (bind_same eq).
    { unfold after_step. destruct (afterNavigation p);
        [by apply call_same|by split]. }
    intros [] ? s1 t1 _ Hst1. by apply IH.
Qed.

Lemma commit_same url s t :
  same_but_plugins s t → same_run eq (commit url s) (commit url t).
Proof using All.
  intros (Hc & Hr & Hl & Hh & Ht & Hd & Ha).
  destruct (pushState_location (pathname url +:+ search url) (location s))
    as [loc|] eqn:Hp.
  - rewrite (commit_committed url loc s Hp).
    rewrite Hl in Hp. rewrite (commit_committed url loc t Hp).
    repeat split; simpl; congruence.
  - rewrite (commit_throws url s Hp).
    rewrite Hl in Hp. rewrite (commit_throws url t Hp).
    by repeat split.
Qed.

Lemma complete_navigation_same ps url s t :
  same_but_plugins s t →
  same_run eq (complete_navigation ps url s) (complete_navigation ps url t).
Proof using All.
  intros Hst. unfold complete_navigation.
  apply (bind_same same_route).
  { unfold gets. split; [done|]. simpl. by destruct Hst as (_ & Hr & _). }
  intros r r' s1 t1 Hrr Hst1.
  destruct r as [r|], r' as [r'|]; try done.
  apply (bind_same eq); [by apply before_loop_same|].
  intros [] ? s2 t2 _ Hst2.
  apply (bind_same eq); [by apply commit_same|].
  intros [] ? s3 t3 _ Hst3. by apply after_loop_same.
Qed.

(** With the same plugin list from the first match, the two routers
    navigate alike. *)
Lemma navigate_same target s :
  (∀ r0 r0',
     (match_or_fallback this (default (location s)
                                (target_url (location s) target)) s).1
       = inr r0 →
     (match_or_fallback that (default (location s)
                                (target_url (location s) target)) s).1
       = inr r0' →
     effective_plugins this r0 = effective_plugins that r0') →
  same_run eq (navigate this target s) (navigate that target s).
Proof using All.
  intros Hlist. unfold navigate. rewrite !bind_run. unfold gets. simpl.
  destruct (target_url (location s) target) as [url|]; simpl in Hlist;
    [|split; [apply same_but_plugins_refl|done]].
  pose proof (match_or_fallback_same url s s (same_but_plugins_refl s))
    as Hm.
  rewrite !bind_run.
  destruct (match_or_fallback this url s) as [[e|r0] s0],
    (match_or_fallback that url s) as [[e'|r0'] t0];
    destruct Hm as [Hst Hres]; simpl in *; try done.
  rewrite !bind_run. unfold set_route, modify. simpl.
  rewrite <- (Hlist r0 r0' eq_refl eq_refl).
  assert (Hst0 : same_but_plugins (with_route r0 s0) (with_route r0' t0)).
  { destruct Hst as (Hc & Hr & Hl & Hh & Ht & Hd & Ha). by repeat split. }
  apply (bind_same eq); [by apply guard_loop_same|].
  intros u ? s1 t1 <- Hst1. by apply complete_navigation_same.
Qed.

End SameRouting.

Section OriginalList.
Context `{host : Host}.

(** C3 (as amended).  The plugin list of a navigation is made once, from
    the route matched first: the global plugins, then the plugins of
    that route, all of them in their order.  When a guard of the list
    says no, the target becomes its redirect, the route is matched again
    (with the fallback), and the guard loop goes on with the plugins
    left in that same list; the before and the after loop then run over
    that same list, and what they leave is what [navigate] leaves.  The
    plugins of the other routes, the newly matched one included, play no
    part: a router that differs in them only navigates alike. *)
Theorem guard_redirect_continues_over_original_list
    (this that : Router) (target : string + URL) (url : URL) (s : State)
    (r0 : option Route) (s0 : State) (pre : list Plugin) (p : Plugin)
    (rest : list Plugin) (url1 : URL) (s1 : State)
    (h : Hook (option Guard)) (g : Guard) (a1 a2 : App) (url' : URL)
    (r' : option Route) (s2 : State) (url2 : URL) (sg sb : State)
    (loc : URL) (res : Exn + unit) (sa : State) :
  target_url (location s) target = Some url →
  match_or_fallback this url s = (inr r0, s0) →
  effective_plugins this r0 = pre ++ p :: rest →
  guard_loop this pre url (with_route r0 s0) = (inr url1, s1) →
  shouldNavigate p = Some h →
  h (context s1) (app s1) = (inr (Some g), a1) →
  condition g a1 = (inr false, a2) →
  resolve_at (location s) (redirect g) = Some url' →
  match_or_fallback this url' (with_app a2 s1) = (inr r', s2) →
  guard_loop this rest url' (with_route r' s2) = (inr url2, sg) →
  is_Some (route sg) →
  before_loop (pre ++ p :: rest) sg = (inr tt, sb) →
  pushState_location (pathname url2 +:+ search url2) (location s)
    = Some loc →
  after_loop (pre ++ p :: rest) (committed url2 loc sb) = (res, sa) →
  same_routing this that →
  (∀ r0', (match_or_fallback that url s).1 = inr r0' →
          effective_plugins that r0' = pre ++ p :: rest) →
  (∀ i q, global_plugins this !! i = Some q →
          (pre ++ p :: rest) !! i = Some q) ∧
  (∀ i q, match r0 with
          | Some r => default [] (plugins r)
          | None => []
          end !! i = Some q →
          (pre ++ p :: rest) !! (length (global_plugins this) + i)
            = Some q) ∧
  navigate this target s = (res, sa) ∧
  (navigate that target s).1 = res ∧
  same_but_plugins sa (navigate that target s).2.
Proof.
  intros Ht Hm Heff Hpre Hh Hg Hc Hu Hm2 Hrest Hr Hbefore Hpush Hafter
    Hsame Hthat.
  assert (Hl1 : location s1 = location s).
  { apply guard_loop_window in Hpre. apply match_or_fallback_frame in Hm.
    unfold window in Hpre. injection Hpre as -> _ _ _. by rewrite Hm. }
  assert (Hlb : location sb = location s).
  { apply before_loop_frame in Hbefore. apply guard_loop_window in Hrest.
    apply match_or_fallback_frame in Hm2.
    unfold window in Hrest. injection Hrest as Hl _ _ _.
    rewrite Hbefore. simpl. rewrite Hl. simpl. rewrite Hm2. done. }
  assert (Hstep : guard_step this p url1 s1 = (inr url', with_route r' s2)).
  { rewrite <- Hl1 in Hu.
    rewrite (guard_step_veto this p url1 s1 h g a1 a2 url' Hh Hg Hc Hu).
    by rewrite bind_run, Hm2. }
  assert (Hnav : navigate this target s = (res, sa)).
  { rewrite (navigate_resolved this target url s r0 s0 Ht Hm), Heff.
    rewrite bind_run, (guard_loop_app_returns this _ _ _ _ _ _ Hpre).
    simpl guard_loop. rewrite bind_run, Hstep, Hrest.
    rewrite <- Hlb in Hpush.
    by rewrite (complete_navigation_before _ _ _ _ _ Hr Hbefore Hpush). }
  split_and!.
  - intros i q Hq. rewrite <- Heff. unfold effective_plugins.
    by apply lookup_app_l_Some.
  - intros i q Hq. rewrite <- Heff. unfold effective_plugins.
    by rewrite lookup_app_r, Nat.add_comm, Nat.add_sub
      by (unfold global_plugins; lia).
  - done.
  - pose proof (navigate_same this that Hsame target s) as Hrun.
    rewrite Hnav in Hrun. destruct Hrun as [_ Hres].
    + intros r1 r1'. rewrite Ht. simpl. rewrite Hm. simpl.
      intros [= <-] H'. rewrite Heff. symmetry. by apply Hthat.
    + simpl in Hres. destruct res as [e|[]],
        ((navigate that target s).1) as [e'|[]]; by subst.
  - pose proof (navigate_same this that Hsame target s) as Hrun.
    rewrite Hnav in Hrun. destruct Hrun as [Hst _]; [|done].
    intros r1 r1'. rewrite Ht. simpl. rewrite Hm. simpl.
    intros [= <-] H'. rewrite Heff. symmetry. by apply Hthat.
Qed.

End OriginalList.

Import Sample.

Lemma onPopState_without_match_witness :
  route (went_back at_home) = Some (route_of (page "/home" "Home")) ∧
  resolve_at (location (went_back at_home)) (fallback_string with_home)
    = Some (at_path "/home") ∧
  find_match (routes with_home) (location (went_back at_home)) = None ∧
  (_onPopState with_home (went_back at_home)).1 = inr tt ∧
  route (_onPopState with_home (went_back at_home)).2 = None ∧
  context (_onPopState with_home (went_back at_home)).2
    = context_of "/home" "Home" ∧
  dispatched (_onPopState with_home (went_back at_home)).2
    = [context_of "/home" "Home"; context_of "/home" "Home"].
Proof.
  split; [reflexivity|]. split; [reflexivity|]. split; [reflexivity|].
  apply (onPopState_without_match with_home (went_back at_home)).
  reflexivity.
Defined.


(** In that table the match returns the first of the twins. *)
Example first_twin_is_matched :
  (_matchRoute twins (at_path "/a") start).1
    = inr (Some (route_of (page "/a" "first"))).
Proof. reflexivity. Qed.

(** C2 (as stated) fails: on a match the step itself replaces the
    current context. *)
Lemma matchRoute_replaces_context :
  (_matchRoute one_page (at_path "/a") start).1 =
    inr (Some {| definition := page "/a" "A"; urlPattern := "/a" |}) ∧
  context (_matchRoute one_page (at_path "/a") start).2 ≠ context start.
Proof.
  split; [reflexivity|].
  intros H. apply (f_equal ctx_title) in H. vm_compute in H. discriminate.
Qed.

(** C7: a current route without [render] makes [render()] throw. *)
Theorem render_without_render_function_throws :
  route (navigate one_page (inl "/a") start).2 =
    Some {| definition := page "/a" "A"; urlPattern := "/a" |} ∧
  Router_render (navigate one_page (inl "/a") start).2 =
    inl (TypeError "this.route?.render is not a function").
Proof. split; reflexivity. Qed.

Lemma onAnchorClick_exclusions_witness :
  (metaKey (click (anchor {[ "target" := "_blank" ]})) = true ∨
   ctrlKey (click (anchor {[ "target" := "_blank" ]})) = true ∨
   shiftKey (click (anchor {[ "target" := "_blank" ]})) = true ∨
   (∃ a, clicked_anchor (click (anchor {[ "target" := "_blank" ]})) = Some a ∧
         (getAttribute a "target" = Some "_blank" ∨
          hasAttribute a "download" = true))) ∧
  (∀ url, intercepted (click (anchor {[ "target" := "_blank" ]})) start
          ≠ inr (Some url)) ∧
  ∃ out, _onAnchorClick one_page (click (anchor {[ "target" := "_blank" ]}))
           start = (out, click (anchor {[ "target" := "_blank" ]}), start) ∧
         ∀ settled, out ≠ Navigated settled.
Proof.
  assert (H : metaKey (click (anchor {[ "target" := "_blank" ]})) = true ∨
   ctrlKey (click (anchor {[ "target" := "_blank" ]})) = true ∨
   shiftKey (click (anchor {[ "target" := "_blank" ]})) = true ∨
   (∃ a, clicked_anchor (click (anchor {[ "target" := "_blank" ]})) = Some a ∧
         (getAttribute a "target" = Some "_blank" ∨
          hasAttribute a "download" = true))).
  { right. right. right. exists (anchor {[ "target" := "_blank" ]}).
    split; [reflexivity|]. left. reflexivity. }
  split; [exact H|].
  exact (onAnchorClick_exclusions one_page
           (click (anchor {[ "target" := "_blank" ]})) start H).
Defined.

(** The same click on a plain link is intercepted. *)
Example plain_click_navigates :
  intercepted (click (anchor ∅)) start = inr (Some (at_path "/docs")) ∧
  defaultPrevented (_onAnchorClick one_page (click (anchor ∅)) start).1.2
    = true.
Proof. split; reflexivity. Qed.



(** A guard of a global plugin can rescue a target that neither matches
    nor falls back: the navigation commits the guard's redirect. *)
Example unroutable_target_redirected :
  unroutable_target one_page_redirecting (location start) (at_path "/b") ∧
  (navigate one_page_redirecting (inl "/b") start).1 = inr tt ∧
  history (navigate one_page_redirecting (inl "/b") start).2 = ["/a"].
Proof.
  split; [|split; reflexivity].
  split; [reflexivity|]. exists (at_path "/"). split; reflexivity.
Qed.

Lemma guard_redirect_continues_over_original_list_witness :
  navigate gated (inl "/a") start
    = (inr tt, (navigate gated (inl "/a") start).2) ∧
  route (navigate gated (inl "/a") start).2 = Some page_login ∧
  app (navigate gated (inl "/a") start).2
    = ["should:a1"; "should:a2"; "before:a1"; "before:a2";
       "after:a1"; "after:a2"] ∧
  (navigate gated_otherwise (inl "/a") start).1 = inr tt ∧
  same_but_plugins (navigate gated (inl "/a") start).2
    (navigate gated_otherwise (inl "/a") start).2.
Proof.
  pose (s0 := with_context (context_of "/a" "A") start).
  pose (s1 := with_route (Some page_a) s0).
  pose (s2 := (match_or_fallback gated (at_path "/login")
                 (with_app ["should:a1"] s1)).2).
  pose (sg := (guard_loop gated [plugin "a2" true "/"] (at_path "/login")
                 (with_route (Some page_login) s2)).2).
  pose (sb := (before_loop
                 [plugin "a1" false "/login"; plugin "a2" true "/"] sg).2).
  destruct (guard_redirect_continues_over_original_list gated
    gated_otherwise (inl "/a") (at_path "/a") start (Some page_a) s0
    [] (plugin "a1" false "/login") [plugin "a2" true "/"]
    (at_path "/a") s1 (guard_to "should:a1" false "/login")
    {| condition := λ a', (inr false, a'); redirect := "/login" |}
    ["should:a1"] ["should:a1"] (at_path "/login") (Some page_login) s2
    (at_path "/login") sg sb (at_path "/login") (inr tt)
    (navigate gated (inl "/a") start).2)
    as (_ & _ & Hnav & Hres & Hst); try reflexivity.
  - by exists page_login.
  - repeat split; reflexivity.
  - intros r0' Hr0'. vm_compute in Hr0'. injection Hr0' as <-. reflexivity.
  - split; [exact Hnav|]. split; [reflexivity|]. split; [reflexivity|].
    split; [exact Hres|exact Hst].
Defined.

(** C3 (as stated) fails: after the guard of [a1] has redirected [/a] to
    [/login], the route is [/login], whose plugins are [l1] and [l2], and
    yet the hooks that ran are those of [a1] and [a2], the plugins of
    [/a]; no hook of [l1] or [l2] ran. *)
Lemma guard_redirect_keeps_plugins_of_first_route :
  (navigate gated (inl "/a") start).1 = inr tt ∧
  route (navigate gated (inl "/a") start).2 = Some page_login ∧
  effective_plugins gated (Some page_login)
    = [plugin "l1" true "/"; plugin "l2" true "/"] ∧
  app (navigate gated (inl "/a") start).2
    = ["should:a1"; "should:a2"; "before:a1"; "before:a2";
       "after:a1"; "after:a2"] ∧
  Forall (λ name, name ≠ "should:l1" ∧ name ≠ "should:l2")
    (app (navigate gated (inl "/a") start).2).
Proof.
  split_and!; [reflexivity..|].
  replace (app (navigate gated (inl "/a") start).2)
    with ["should:a1"; "should:a2"; "before:a1"; "before:a2";
          "after:a1"; "after:a2"] by reflexivity.
  repeat constructor; discriminate.
Qed.

Lemma hook_exception_propagates_witness :
  target_url (location start) (inl "/a") = Some (at_path "/a") ∧
  navigate (failing 2) (inl "/a") start =
    (inl (Error "after"),
     with_app [] (committed (at_path "/a") (at_path "/a")
                    (with_route (Some (route_of
                       (with_plugins (page "/a" "A") [failing_plugin 2])))
                       (with_context (context_of "/a" "A") start)))) ∧
  history (navigate (failing 2) (inl "/a") start).2 = ["/a"] ∧
  document_title (navigate (failing 2) (inl "/a") start).2 = "A" ∧
  dispatched (navigate (failing 2) (inl "/a") start).2
    = [context_of "/a" "A"].
Proof.
  pose (r := route_of (with_plugins (page "/a" "A") [failing_plugin 2])).
  pose (s1 := with_route (Some r) (with_context (context_of "/a" "A") start)).
  pose (here := at_path "/a").
  destruct (hook_exception_propagates (failing 2) (inl "/a") (at_path "/a")
              start (Some r) (with_context (context_of "/a" "A") start)
              [] (failing_plugin 2) [] (Error "after") []
              eq_refl eq_refl eq_refl) as (_ & _ & Hafter).
  destruct (Hafter (at_path "/a") s1 s1 here (committed here here s1)
              (throwing "after") eq_refl (ex_intro _ r eq_refl)
              eq_refl eq_refl eq_refl eq_refl eq_refl)
    as (Hnav & Hh & Ht & Hd).
  split; [reflexivity|]. split; [exact Hnav|].
  rewrite Hnav. split_and!; reflexivity.
Defined.

(** The same with a hook that throws before the commit. *)
Example guard_exception_prevents_commit :
  (navigate (failing 0) (inl "/a") start).1 = inl (Error "guard") ∧
  window (navigate (failing 0) (inl "/a") start).2 = window start.
Proof. split; reflexivity. Qed.

Example before_exception_prevents_commit :
  (navigate (failing 1) (inl "/a") start).1 = inl (Error "before") ∧
  window (navigate (failing 1) (inl "/a") start).2 = window start.
Proof. split; reflexivity. Qed.



Lemma quiet_plugin_pure : pure_plugin quiet_plugin.
Proof.
  split_and!; intros h [= <-]; [|done..].
  split; [done|]. intros c a g [= <-]. done.
Qed.

Lemma navigate_twice_same_context_witness :
  is_current quiet (at_path "/a") (navigate quiet (inl "/a") start).2 ∧
  ∃ s2 c,
    navigate quiet (inr (at_path "/a"))
      (navigate quiet (inr (at_path "/a"))
         (navigate quiet (inl "/a") start).2).2 = (inr tt, s2) ∧
    dispatched (navigate quiet (inr (at_path "/a"))
                  (navigate quiet (inl "/a") start).2).2
      = dispatched (navigate quiet (inl "/a") start).2 ++ [c] ∧
    dispatched s2
      = dispatched (navigate quiet (inl "/a") start).2 ++ [c; c] ∧
    context (navigate quiet (inr (at_path "/a"))
               (navigate quiet (inl "/a") start).2).2 = c ∧
    context s2 = c.
Proof.
  assert (Hcur : is_current quiet (at_path "/a")
                   (navigate quiet (inl "/a") start).2).
  { exists (route_of (with_plugins (page "/a" "A") [quiet_plugin])),
      {| pathname_groups := Some ∅ |}.
    split_and!; reflexivity. }
  split; [exact Hcur|].
  apply (navigate_twice_same_context quiet (at_path "/a")
           (navigate quiet (inl "/a") start).2
           (navigate quiet (inr (at_path "/a"))
              (navigate quiet (inl "/a") start).2).2).
  - change (all_plugins quiet) with [quiet_plugin; quiet_plugin].
    constructor; [apply quiet_plugin_pure|].
    constructor; [apply quiet_plugin_pure|constructor].
  - exact Hcur.
  - reflexivity.
  - reflexivity.
  - intros entry Hentry. exact Hentry.
Defined.

(** C8 (as stated) fails: [/a] is the current URL and the only plugin has
    no side effect, but its guard redirects to a URL that no route
    accepts; both calls of [navigate] are rejected and no event is
    dispatched. *)
Lemma navigate_twice_without_notification :
  is_current dead_end (at_path "/a") back_at_a ∧
  Forall pure_plugin (all_plugins dead_end) ∧
  (navigate dead_end (inr (at_path "/a")) back_at_a).1
    = inl (unroutable (at_path "/nowhere")) ∧
  (navigate dead_end (inr (at_path "/a"))
     (navigate dead_end (inr (at_path "/a")) back_at_a).2).1
    = inl (unroutable (at_path "/nowhere")) ∧
  dispatched (navigate dead_end (inr (at_path "/a"))
                (navigate dead_end (inr (at_path "/a")) back_at_a).2).2
    = dispatched back_at_a.
Proof.
  split_and!; try reflexivity.
  - exists (route_of (with_plugins (page "/a" "A") [pure_guard "/nowhere"])),
      {| pathname_groups := Some ∅ |}.
    split_and!; reflexivity.
  - change (all_plugins dead_end) with [pure_guard "/nowhere"].
    constructor; [|constructor].
    split_and!; intros h [= <-].
    split; [done|]. intros c a g [= <-]. done.
Qed.

Lemma Router_new_compiles_every_route_witness :
  Router_new {| fallback := None; config_plugins := None;
                config_routes := [page "/a" "first"; page "/a" "second"] |}
    (at_path "/") = inr twins ∧
  map definition (routes twins) = [page "/a" "first"; page "/a" "second"].
Proof.
  split; [reflexivity|].
  apply (proj1 (Router_new_compiles_every_route
    {| fallback := None; config_plugins := None;
       config_routes := [page "/a" "first"; page "/a" "second"] |}
    (at_path "/")) twins eq_refl).
Defined.



Lemma navigate_with_invalid_fallback_witness :
  fallback_string bad_fallback = "http://" ∧
  navigate bad_fallback (inl "/b") (navigate bad_fallback (inl "/a") start).2
    = (inl (TypeError "Invalid URL"),
       (navigate bad_fallback (inl "/a") start).2).
Proof.
  split; [reflexivity|].
  apply (navigate_with_invalid_fallback bad_fallback (inl "/b")
           (at_path "/b")); reflexivity.
Defined.

Lemma reachable_in_sync_witness :
  in_sync gated
    (_onPopState gated
       (with_location (at_path "/login")
          (navigate gated (inl "/nowhere") start).2)).2.
Proof.
  apply (reachable_in_sync gated).
  apply reach_popstate, reach_navigate, reach_initial.
Defined.

Lemma query_last_entry_wins_witness :
  ∃ c, @build_context host_with_query page_with_query with_query
         {| pathname_groups := Some ∅ |} = inr c ∧
       ctx_query c !! "tab" = Some "likes".
Proof.
  eexists. split; [reflexivity|].
  refine (proj1 (@query_last_entry_wins host_with_query
            page_with_query with_query
            {| pathname_groups := Some ∅ |} _ "tab" eq_refl)
          [("tab", "posts")] "likes" [] eq_refl _).
  apply not_elem_of_nil.
Defined.

Lemma render_after_navigate_witness :
  ∃ c, last (dispatched (navigate rendering (inl "/a") start).2) = Some c ∧
       Router_render (navigate rendering (inl "/a") start).2
         = inr (Some (ctx_title c +:+ " at " +:+ pathname (ctx_url c))).
Proof.
  refine (render_after_navigate rendering (inl "/a") start
            {| definition :=
                 {| path := "/a"; title := TitleString "A";
                    render := Some (λ c, ctx_title c +:+ " at " +:+
                                         pathname (ctx_url c));
                    plugins := None |};
               urlPattern := "/a" |}
            (λ c, ctx_title c +:+ " at " +:+ pathname (ctx_url c))
            eq_refl eq_refl eq_refl).
Defined.

Lemma onAnchorClick_ignores_witness :
  (∀ url, intercepted (click (anchor {[ "target" := "_top" ]})) start
          ≠ inr (Some url)) ∧
  ∃ out, _onAnchorClick one_page (click (anchor {[ "target" := "_top" ]}))
           start = (out, click (anchor {[ "target" := "_top" ]}), start) ∧
         (out = Returned ∨
          out = Threw (TypeError "Invalid URL") ∧
          ∃ a h, clicked_anchor (click (anchor {[ "target" := "_top" ]}))
                   = Some a ∧
                 el_href a = Some h ∧ URL_new h None = None).
Proof.
  apply (onAnchorClick_ignores one_page
           (click (anchor {[ "target" := "_top" ]})) start).
  right. right. right. exists (anchor {[ "target" := "_top" ]}).
  split; [reflexivity|].
  right. right. right. exists "_top". split; [reflexivity|].
  split; discriminate.
Defined.

(** That click makes the handler return. *)
Example top_click_returns :
  _onAnchorClick one_page (click (anchor {[ "target" := "_top" ]})) start
    = (Returned, click (anchor {[ "target" := "_top" ]}), start).
Proof. reflexivity. Qed.


(** The navigation of that click is rejected, no route accepts [/docs];
    the default action is prevented all the same. *)
Example rejected_click_stays_prevented :
  (_onAnchorClick one_page (click (anchor ∅)) start).1.1
    = Navigated (inl (unroutable (at_path "/docs"))) ∧
  defaultPrevented (_onAnchorClick one_page (click (anchor ∅)) start).1.2
    = true.
Proof. split; reflexivity. Qed.
